(** * saddle: the transaction tracer of [src/trace.ts]

    A shallow embedding of [getSource], [buildTracer] and the [trace]
    closure it returns, followed by the properties of the pipeline

      resolve source -> fetch -> observe -> augment -> pre-filter
        -> inject source -> post-filter -> dispatch.

    JavaScript values the code only passes around are kept opaque; the
    values it inspects ([null], [undefined], strings, integers used as
    lines, columns and program counters) are modelled as the language
    treats them.  Collaborators that live outside the file (web3, the
    sol-tracing-utils collector and source-map parser, chalk, the
    augmentation module) are functions supplied from outside; every call
    to one of them is recorded in an event log, so that statements about
    which address was queried or which handler ran can be read off the
    log. *)

From Stdlib Require Import Ascii String.
From stdpp Require Import gmap strings list fin_maps pretty.

Open Scope string_scope.
Open Scope list_scope.
Open Scope Z_scope.

(** ** JavaScript values and failures *)

(** The values the tracer tells apart.  [JObj] stands for any object or
    function, identified by a reference. *)
Inductive jsval : Type :=
  | JUndefined
  | JNull
  | JStr (s : string)
  | JObj (ref : nat).

(** Truthiness, as used by [a || b] and [if (a)]. *)
Definition truthy (v : jsval) : bool :=
  match v with
  | JUndefined | JNull => false
  | JStr s => negb (String.eqb s "")
  | JObj _ => true
  end.

(** [a || b] *)
Definition js_or (a b : jsval) : jsval := if truthy a then a else b.

(** [v !== null] *)
Definition not_strict_null (v : jsval) : bool :=
  match v with
  | JNull => false
  | _ => true
  end.

(** String conversion inside a template literal, [`${v}`]. *)
Definition js_to_string (v : jsval) : string :=
  match v with
  | JUndefined => "undefined"
  | JNull => "null"
  | JStr s => s
  | JObj _ => "[object Object]"
  end.

(** [`${n}`] for an integral number: its decimal numeral. *)
Definition js_number_to_string (n : Z) : string := pretty n.

(** What a [throw] or a rejected promise carries. *)
Inductive exn : Type :=
  | TypeError (msg : string)       (* raised by the runtime *)
  | Error (msg : string)           (* [new Error(msg)] thrown by the tracer *)
  | Rejected (reason : jsval).     (* failure of a collaborator or handler *)

Inductive result (A : Type) : Type :=
  | Ok (a : A)
  | Err (e : exn).
Arguments Ok {A} a.
Arguments Err {A} e.

Definition result_bind {A B} (r : result A) (k : A → result B) : result B :=
  match r with
  | Ok a => k a
  | Err e => Err e
  end.

(** ** Array and string primitives *)

(** Index normalisation shared by [Array.prototype.slice] and
    [String.prototype.slice]: a negative index counts from the end, and
    the result is clamped to [0 .. len]. *)
Definition slice_index (len i : Z) : Z :=
  if i <? 0 then Z.max (len + i) 0 else Z.min i len.

(** First index and number of elements of [x.slice(start, stop)];
    [stop = None] is the one-argument form. *)
Definition slice_bounds (len : nat) (start : Z) (stop : option Z) : nat * nat :=
  let k := slice_index (Z.of_nat len) start in
  let final :=
    match stop with
    | None => Z.of_nat len
    | Some e => slice_index (Z.of_nat len) e
    end in
  (Z.to_nat k, Z.to_nat (Z.max (final - k) 0)).

Definition array_slice {A} (l : list A) (start : Z) (stop : option Z) : list A :=
  let '(k, n) := slice_bounds (length l) start stop in
  take n (drop k l).

Fixpoint string_take (n : nat) (s : string) : string :=
  match n, s with
  | S n', String c s' => String c (string_take n' s')
  | _, _ => ""
  end.

Fixpoint string_drop (n : nat) (s : string) : string :=
  match n, s with
  | S n', String _ s' => string_drop n' s'
  | _, _ => s
  end.

Definition string_slice (s : string) (start : Z) (stop : option Z) : string :=
  let '(k, n) := slice_bounds (String.length s) start stop in
  string_take n (string_drop k s).

(** [l.reduce((acc, x, i) => f acc x i, init)] *)
Fixpoint reduce_from {A B} (f : B → A → nat → B) (i : nat) (l : list A)
    (acc : B) : B :=
  match l with
  | [] => acc
  | x :: l' => reduce_from f (S i) l' (f acc x i)
  end.

Definition array_reduce {A B} (f : B → A → nat → B) (l : list A) (init : B) : B :=
  reduce_from f 0 l init.

(** [l.map(f)] for a callback that may throw: elements are visited in
    order and the first exception aborts the whole map. *)
Fixpoint array_map {A B} (f : A → result B) (l : list A) : result (list B) :=
  match l with
  | [] => Ok []
  | x :: l' =>
      result_bind (f x) (λ y,
      result_bind (array_map f l') (λ ys, Ok (y :: ys)))
  end.

(** [s.split("\n")]: never empty, one more piece than there are line
    feeds. *)
Fixpoint split_lines (s : string) : list string :=
  match s with
  | "" => [""]
  | String c s' =>
      if Ascii.eqb c "010"%char then "" :: split_lines s'
      else match split_lines s' with
           | [] => [String c ""]
           | l :: ls => String c l :: ls
           end
  end.

(** [stripHexPrefix] of ethereumjs-util: drops a leading "0x". *)
Definition stripHexPrefix (s : string) : string :=
  match s with
  | String "0"%char (String "x"%char s') => s'
  | _ => s
  end.

(** ** Data model (the interfaces of [trace.ts]) *)

Record InversionItem : Type := {
  operation : string;
  inputs : list string
}.

Record StructLog : Type := {
  depth : Z;
  error : string;
  gas : Z;
  gasCost : Z;
  memory : option (list string);
  op : string;
  pc : Z;
  stack : list string;
  storage : gmap string string;
  source : jsval;
  sourceLine : option string;
  desc : option string;
  lastDesc : option string;
  sha : nat;
  show : option nat
}.

Record TraceInfo : Type := {
  lastLog : option StructLog;
  inv : gmap string (list InversionItem)
}.

Record Trace : Type := {
  trace_gas : Z;
  returnValue : jsval;
  structLogs : list StructLog
}.

(** The fields of web3's [TransactionReceipt] the tracer reads. *)
Record TransactionReceipt : Type := {
  transactionHash : string;
  contractAddress : jsval;
  to : jsval
}.

(** [SourceRange] of sol-tracing-utils: 1-based lines, 0-based columns. *)
Record LineColumn : Type := {
  line : Z;
  column : Z
}.

Record SingleFileSourceRange : Type := {
  start : LineColumn;
  end_ : LineColumn
}.

Record SourceRange : Type := {
  location : SingleFileSourceRange;
  fileName : string
}.

(** The fields of sol-tracing-utils' [ContractData] the tracer reads.
    [sources] is kept in the order [Object.entries] enumerates it. *)
Record ContractData : Type := {
  sourceCodes : gmap Z string;
  sources : list (Z * string);
  sourceMap : string;
  sourceMapRuntime : string
}.

(** A promise, reduced to what [Promise.all] observes of it: when it
    settles and how. *)
Record Promise (A : Type) : Type := {
  settles_at : nat;
  outcome : result A
}.
Arguments settles_at {A} p.
Arguments outcome {A} p.

(** [TraceOptions].  The observer is handed whatever the trace request
    resolved with, [None] when that is [undefined].  A handler is an
    arbitrary closure: the result of [execLog] may depend on which
    invocation it is, hence the leading invocation index.  A call of
    [execLog] either throws, [Err], or returns a promise, [Ok]; an
    [async] handler always returns one. *)
Record TraceOptions : Type := {
  constants : option (gmap string string);
  onTrace : option (option Trace → result unit);
  preFilter : option (StructLog → bool);
  postFilter : option (StructLog → bool);
  execLog : option (nat → StructLog → TraceInfo → result (Promise unit));
  exec : option (list StructLog → TraceInfo → result unit)
}.

(** ** Collaborators *)

Record Web3 : Type := {
  (* [web3.eth.getCode(address)] *)
  eth_getCode : jsval → result string;
  (* how the promise of [traceTransaction(web3, txHash, {})] settles:
     rejected, or resolved with the [result] of the node's reply, which
     is [undefined], [None], when the reply has none *)
  debug_traceTransaction : string → result (option Trace)
}.

Record ArtifactAdapter : Type := {
  collectContractsDataAsync : result (list ContractData)
}.

Record TraceCollector : Type := {
  getContractDataByTraceInfoIfExistsAsync :
    jsval → string → bool → result (option ContractData)
}.

Record NetworkConfig : Type := {
  web3 : Web3;
  artifactAdapter : option ArtifactAdapter
}.

(** Calls that leave the tracer, in the order they are made. *)
Inductive Event : Type :=
  | EvCollectContractsData
  | EvGetCode (address : jsval)
  | EvGetContractData (address : jsval) (bytecode : string) (isContractCreation : bool)
  | EvParseSourceMap (sourceMap bytecodeHex : string)
  | EvTraceTransaction (txHash : string)
  | EvOnTrace (t : option Trace)
  | EvAugmentLogs (logs : list StructLog) (consts : gmap string string)
  | EvExecLog (log : StructLog) (info : TraceInfo)
  | EvExec (logs : list StructLog) (info : TraceInfo).

(** ** The effect monad: failure plus the event log *)

Definition M (A : Type) : Type := list Event → result A * list Event.

Definition ret {A} (a : A) : M A := λ evs, (Ok a, evs).

Definition throw {A} (e : exn) : M A := λ evs, (Err e, evs).

Definition bind {A B} (m : M A) (k : A → M B) : M B :=
  λ evs,
    match m evs with
    | (Ok a, evs') => k a evs'
    | (Err e, evs') => (Err e, evs')
    end.

(** A call to a collaborator: it is logged, then succeeds or fails. *)
Definition call {A} (ev : Event) (r : result A) : M A :=
  λ evs, (r, evs ++ [ev]).

(** A computation of the tracer itself that may throw. *)
Definition lift {A} (r : result A) : M A := λ evs, (r, evs).

Declare Scope tracer_scope.
Delimit Scope tracer_scope with tracer.
Notation "'let*' x ':=' m 'in' k" := (bind m (λ x, k))
  (at level 10, x name, m at level 100, k at level 200) : tracer_scope.
Notation "'do' m 'then' k" := (bind m (λ _, k))
  (at level 10, m at level 100, k at level 200) : tracer_scope.

(** ** Highlighting (chalk) *)

Definition ESC : ascii := ascii_of_nat 27.

(** SGR sequences of [chalk.blueBright]: foreground 94, reset 39. *)
Definition sgr_open : string := String ESC "[94m".
Definition sgr_close : string := String ESC "[39m".

(** [chalk.blueBright(s)] on text that holds no escape sequence and no
    line feed, which is all [getSource] hands it for files without
    escape characters.  With colours disabled, and on the empty string,
    chalk returns its argument. *)
Definition blueBright (enabled : bool) (s : string) : string :=
  if enabled && negb (String.eqb s "") then sgr_open +:+ s +:+ sgr_close else s.

(** Removal of SGR sequences: from an escape character up to and
    including the next "m". *)
Fixpoint strip_from (in_escape : bool) (s : string) : string :=
  match s with
  | "" => ""
  | String c s' =>
      if in_escape then strip_from (negb (Ascii.eqb c "m"%char)) s'
      else if Ascii.eqb c ESC then strip_from true s'
      else String c (strip_from false s')
  end.

Definition strip_markers (s : string) : string := strip_from false s.

(** Text without escape characters. *)
Fixpoint esc_free (s : string) : bool :=
  match s with
  | "" => true
  | String c s' => negb (Ascii.eqb c ESC) && esc_free s'
  end.

(** ** [getSource] (lines 66-96) *)

Record Excerpt : Type := {
  excerpt_source : string;
  excerpt_sourceLine : string
}.

Section GetSource.

(** [let color = chalk.blueBright] *)
Variable color : string → string.

(** The callback of [lines.reduce], lines 75-90. *)
Definition excerpt_step (lines : list string) (startCol endCol : Z)
    (result : string) (line : string) (i : nat) : string :=
  let first := Nat.eqb i 0 in
  let last := Z.eqb (Z.of_nat i) (Z.of_nat (length lines) - 1) in
  if first && last then
    result +:+ string_slice line 0 (Some startCol)
           +:+ color (string_slice line startCol (Some endCol))
           +:+ string_slice line endCol None
  else if first then
    result +:+ string_slice line 0 (Some startCol)
           +:+ color (string_slice line startCol None)
  else if last then
    result +:+ color (string_slice line 0 (Some endCol))
           +:+ string_slice line endCol None
  else
    result +:+ color line.

(** [sourceFile] is [inverted[offset.fileName]], undefined when the
    index has no such file; [sourceFile.slice] then throws. *)
Definition getSource (offset : SourceRange) (sourceFile : option (list string))
    : result Excerpt :=
  match sourceFile with
  | None => Err (TypeError "Cannot read property 'slice' of undefined")
  | Some sourceFile =>
      let lines :=
        array_slice sourceFile (line (start (location offset)) - 1)
                    (Some (line (end_ (location offset)))) in
      let startCol := column (start (location offset)) in
      let endCol := column (end_ (location offset)) in
      let sourceLine :=
        if line (start (location offset)) =? line (end_ (location offset)) then
          fileName offset +:+ ":"
            +:+ js_number_to_string (line (start (location offset)))
            +:+ "[" +:+ js_number_to_string (column (start (location offset)))
            +:+ "-" +:+ js_number_to_string (column (end_ (location offset)))
            +:+ "]"
        else
          fileName offset +:+ ":"
            +:+ js_number_to_string (line (start (location offset)))
            +:+ "[" +:+ js_number_to_string (column (start (location offset)))
            +:+ "]-" +:+ js_number_to_string (line (end_ (location offset)))
            +:+ "[" +:+ js_number_to_string (column (end_ (location offset)))
            +:+ "]" in
      let source := array_reduce (excerpt_step lines startCol endCol) lines "" in
      Ok {| excerpt_source := source; excerpt_sourceLine := sourceLine |}
  end.

(** [{...log, ...excerpt}]: a fresh object with the properties of
    [log], then [source] and [sourceLine] of the excerpt over them. *)
Definition spread (log : StructLog) (ex : Excerpt) : StructLog :=
  {| depth := depth log;
     error := error log;
     gas := gas log;
     gasCost := gasCost log;
     memory := memory log;
     op := op log;
     pc := pc log;
     stack := stack log;
     storage := storage log;
     source := JStr (excerpt_source ex);
     sourceLine := Some (excerpt_sourceLine ex);
     desc := desc log;
     lastDesc := lastDesc log;
     sha := sha log;
     show := show log |}.

(** The callback of [filteredLogs.map], lines 138-146.  A program
    counter without an entry makes [offset] undefined, and reading
    [offset.fileName] throws. *)
Definition inject (pcToSourceRange : gmap Z SourceRange)
    (inverted : gmap string (list string)) (log : StructLog) : result StructLog :=
  match pcToSourceRange !! pc log with
  | None => Err (TypeError "Cannot read property 'fileName' of undefined")
  | Some offset =>
      let sourceFile := inverted !! fileName offset in
      result_bind (getSource offset sourceFile) (λ ex, Ok (spread log ex))
  end.

End GetSource.

(** ** [Promise.all] *)

(** The rejection that settles first, with its time; among rejections
    settling at the same time the one of the earlier promise. *)
Fixpoint earliest_rejection {A} (ps : list (Promise A)) : option (nat * exn) :=
  match ps with
  | [] => None
  | p :: ps' =>
      match outcome p, earliest_rejection ps' with
      | Ok _, later => later
      | Err e, None => Some (settles_at p, e)
      | Err e, Some (t, e') =>
          if (t <? settles_at p)%nat then Some (t, e') else Some (settles_at p, e)
      end
  end.

Definition fulfilled_value {A} (p : Promise A) : option A :=
  match outcome p with
  | Ok a => Some a
  | Err _ => None
  end.

(** [await Promise.all(ps)]: rejects with the reason of the first
    promise to reject, otherwise yields all values in index order. *)
Definition promise_all {A} (ps : list (Promise A)) : result (list A) :=
  match earliest_rejection ps with
  | Some (_, e) => Err e
  | None => Ok (omap fulfilled_value ps)
  end.

(** ** [buildTracer] and [trace] (lines 98-163) *)

(** What the closure returned by [buildTracer] captures. *)
Record Tracer : Type := {
  network_config : NetworkConfig;
  contractsData : option (list ContractData);
  traceCollector : option TraceCollector
}.

Abbreviation PcTable := (gmap Z SourceRange).
Abbreviation FileIndex := (gmap string (list string)).

(** Lines 120-125: the file-name to lines index.  A source id without
    source text makes [sourceCodes[id]] undefined and [.split] throw. *)
Definition build_inverted (contractData : ContractData) : result FileIndex :=
  fold_left
    (λ acc entry,
       result_bind acc (λ acc,
         match sourceCodes contractData !! entry.1 with
         | None => Err (TypeError "Cannot read property 'split' of undefined")
         | Some code => Ok (<[entry.2 := split_lines code]> acc)
         end))
    (sources contractData) (Ok ∅).

(** [logs.map((log) => execLog(log, info))], line 154, from index [i]
    on: the handler is called on the steps in order, each call being
    logged; a call that throws ends the map, and the steps after it are
    not handed to the handler. *)
Fixpoint invoke_from
    (execLog : nat → StructLog → TraceInfo → result (Promise unit))
    (info : TraceInfo) (i : nat) (logs : list StructLog)
    : M (list (Promise unit)) :=
  match logs with
  | [] => ret []
  | log :: logs' =>
      (let* promise := call (EvExecLog log info) (execLog i log info) in
       let* promises := invoke_from execLog info (S i) logs' in
       ret (promise :: promises))%tracer
  end.

Section Pipeline.

(** [chalk.blueBright] *)
Variable color : string → string.
(** [new TraceCollector(adapter, true, null)] *)
Variable newTraceCollector : ArtifactAdapter → TraceCollector.
(** [parseSourceMap(sourceCodes, sourceMap, bytecodeHex, sources)] *)
Variable parseSourceMap :
  gmap Z string → string → string → list (Z * string) → result PcTable.
(** [augmentLogs(structLogs, constants)] of [./trace/descriptor] *)
Variable augmentLogs :
  list StructLog → gmap string string → result (list StructLog * TraceInfo).

(** Lines 98-103. *)
Definition buildTracer (network_config : NetworkConfig) : M Tracer :=
  (match artifactAdapter network_config with
   | Some adapter =>
       let* contractsData :=
         call EvCollectContractsData (collectContractsDataAsync adapter) in
       ret {| network_config := network_config;
              contractsData := Some contractsData;
              traceCollector := Some (newTraceCollector adapter) |}
   | None =>
       ret {| network_config := network_config;
              contractsData := None;
              traceCollector := None |}
   end)%tracer.

(** Lines 106-126: [pcToSourceRange] and [inverted], both undefined
    when the tracer has no collector. *)
Definition resolve_source (tr : Tracer) (receipt : TransactionReceipt)
    : M (option (PcTable * FileIndex)) :=
  (match traceCollector tr with
   | Some traceCollector =>
       let address := js_or (contractAddress receipt) (to receipt) in
       let isContractCreation := not_strict_null (contractAddress receipt) in
       let* bytecode :=
         call (EvGetCode address)
              (eth_getCode (web3 (network_config tr)) address) in
       let* contractData :=
         call (EvGetContractData address bytecode isContractCreation)
              (getContractDataByTraceInfoIfExistsAsync traceCollector
                 address bytecode isContractCreation) in
       match contractData with
       | None =>
           throw (Error ("Failed to find contract data for given bytecode at "
                         +:+ js_to_string address))
       | Some contractData =>
           let bytecodeHex := stripHexPrefix bytecode in
           let sourceMap :=
             if isContractCreation then sourceMap contractData
             else sourceMapRuntime contractData in
           let* pcToSourceRange :=
             call (EvParseSourceMap sourceMap bytecodeHex)
                  (parseSourceMap (sourceCodes contractData) sourceMap
                     bytecodeHex (sources contractData)) in
           let* inverted := lift (build_inverted contractData) in
           ret (Some (pcToSourceRange, inverted))
       end
   | None => ret None
   end)%tracer.

(** [trace.structLogs] (line 134), a [TypeError] on [undefined]. *)
Definition read_structLogs (trace : option Trace) : result (list StructLog) :=
  match trace with
  | Some trace => Ok (structLogs trace)
  | None => Err (TypeError "Cannot read property 'structLogs' of undefined")
  end.

(** [xs.filter(p)] when [p] is configured, [xs] otherwise. *)
Definition filter_opt (p : option (StructLog → bool)) (xs : list StructLog)
    : list StructLog :=
  match p with
  | Some p => List.filter p xs
  | None => xs
  end.

(** Lines 137-147. *)
Definition inject_source (tables : option (PcTable * FileIndex))
    (filteredLogs : list StructLog) : result (list StructLog) :=
  match tables with
  | Some (pcToSourceRange, inverted) =>
      array_map (inject color pcToSourceRange inverted) filteredLogs
  | None => Ok filteredLogs
  end.

(** Lines 106-149: everything up to [postFilteredLogs]. *)
Definition prepare (tr : Tracer) (receipt : TransactionReceipt)
    (traceOpts : TraceOptions) : M (list StructLog * TraceInfo) :=
  (let* tables := resolve_source tr receipt in
   let* trace :=
     call (EvTraceTransaction (transactionHash receipt))
          (debug_traceTransaction (web3 (network_config tr))
             (transactionHash receipt)) in
   do match onTrace traceOpts with
      | Some onTrace => call (EvOnTrace trace) (onTrace trace)
      | None => ret tt
      end
   then
   let* structLogs := lift (read_structLogs trace) in
   let consts := default ∅ (constants traceOpts) in
   let* augmented :=
     call (EvAugmentLogs structLogs consts)
          (augmentLogs structLogs consts) in
   let augmentedLogs := augmented.1 in
   let info := augmented.2 in
   let filteredLogs := filter_opt (preFilter traceOpts) augmentedLogs in
   let* filteredLogs := lift (inject_source tables filteredLogs) in
   let postFilteredLogs := filter_opt (postFilter traceOpts) filteredLogs in
   ret (postFilteredLogs, info))%tracer.

(** Lines 151-159.  [postFilteredLogs.map] has called the handler on
    the steps before anything is awaited; a promise that rejects does
    not keep the later steps from being handed over, a call that throws
    does. *)
Definition dispatch (traceOpts : TraceOptions)
    (postFilteredLogs : list StructLog) (info : TraceInfo) : M unit :=
  (do match execLog traceOpts with
      | Some execLog =>
          let* promises := invoke_from execLog info 0 postFilteredLogs in
          do lift (promise_all promises) then
          ret tt
      | None => ret tt
      end
   then
   match exec traceOpts with
   | Some exec => call (EvExec postFilteredLogs info) (exec postFilteredLogs info)
   | None => ret tt
   end)%tracer.

(** The closure returned by [buildTracer]. *)
Definition trace (tr : Tracer) (receipt : TransactionReceipt)
    (traceOpts : TraceOptions) : M (list StructLog) :=
  (let* prepared := prepare tr receipt traceOpts in
   do dispatch traceOpts prepared.1 prepared.2 then
   ret prepared.1)%tracer.

End Pipeline.

(** ** The store view of source injection (lines 138-146)

    Steps are objects; an array holds references to them.  The object
    literal [{...log, ...getSource(offset, sourceFile)}] allocates a new
    object, which is all the callback ever writes. *)
Module Store.

Abbreviation heap := (gmap nat StructLog).

Definition alloc (h : heap) (o : StructLog) : nat * heap :=
  let l := fresh (dom h) in (l, <[l := o]> h).

Section Inject.

Variable color : string → string.
Variable pcToSourceRange : PcTable.
Variable inverted : FileIndex.

(** [filteredLogs.map(...)] over an array of references.  The store
    is returned in both outcomes. *)
Fixpoint inject_refs (refs : list nat) (h : heap) : result (list nat) * heap :=
  match refs with
  | [] => (Ok [], h)
  | r :: refs' =>
      match h !! r with
      | None => (Err (TypeError "Cannot read property 'pc' of undefined"), h)
      | Some log =>
          match inject color pcToSourceRange inverted log with
          | Err e => (Err e, h)
          | Ok o =>
              let '(l, h1) := alloc h o in
              match inject_refs refs' h1 with
              | (Ok ls, h2) => (Ok (l :: ls), h2)
              | (Err e, h2) => (Err e, h2)
              end
          end
      end
  end.

End Inject.

End Store.

(** ** Reading the specification *)

(** The raw fields of a step, as the VM reports them. *)
Definition raw_fields (s : StructLog)
    : Z * string * Z * Z * option (list string) * string * Z * list string
      * gmap string string :=
  (depth s, error s, gas s, gasCost s, memory s, op s, pc s, stack s, storage s).

(** Lines [L1 .. L2] of a file, 1-based and inclusive. *)
Definition file_lines (file : list string) (L1 L2 : Z) : list string :=
  take (Z.to_nat (L2 - L1 + 1)) (drop (Z.to_nat (L1 - 1)) file).

(** Lines joined by line feeds. *)
Definition join_lines (ls : list string) : string :=
  String.concat (String "010"%char "") ls.

(** Lines put one after the other with nothing in between. *)
Definition glue_lines (ls : list string) : string := String.concat "" ls.

(** The steps that pass a filter, when one is configured: those on
    which the predicate holds, in their order. *)
Definition surviving (p : option (StructLog → bool)) (steps : list StructLog)
    : list StructLog :=
  match p with
  | Some P => filter (λ s, P s = true) steps
  | None => steps
  end.

(** The failure of an invocation of the per-step handler, if it fails:
    what the call throws, or what the promise it returns rejects
    with. *)
Definition failure_of (invocation : result (Promise unit)) : option exn :=
  match invocation with
  | Err e => Some e
  | Ok p =>
      match outcome p with
      | Err e => Some e
      | Ok _ => None
      end
  end.

(** The single predicate "P1 AND P2". *)
Definition both (P1 P2 : StructLog → bool) (s : StructLog) : bool := P1 s && P2 s.

(** The fields of a step other than [source] and [sourceLine]: the raw
    ones and the enrichments made before source injection. *)
Definition other_fields (s : StructLog) :=
  (raw_fields s, desc s, lastDesc s, sha s, show s).

(** The options [o] with the two filters replaced. *)
Definition with_filters (o : TraceOptions)
    (pre post : option (StructLog → bool)) : TraceOptions :=
  {| constants := constants o;
     onTrace := onTrace o;
     preFilter := pre;
     postFilter := post;
     execLog := execLog o;
     exec := exec o |}.

(** The created-contract address a receipt carries: the receipt of a
    contract creation has one, the receipt of an ordinary call has
    [null] in its place. *)
Definition created_address (receipt : TransactionReceipt) : option string :=
  match contractAddress receipt with
  | JStr a => if decide (a = "") then None else Some a
  | _ => None
  end.

(** The address the resolver is to target: the created contract for a
    creation, the destination otherwise. *)
Definition target_address (receipt : TransactionReceipt) : jsval :=
  match created_address receipt with
  | Some a => JStr a
  | None => to receipt
  end.

(** Projections of the event log. *)
Definition execLog_event (ev : Event) : option (StructLog * TraceInfo) :=
  match ev with
  | EvExecLog log info => Some (log, info)
  | _ => None
  end.

Definition getCode_event (ev : Event) : option jsval :=
  match ev with
  | EvGetCode address => Some address
  | _ => None
  end.

Definition getContractData_event (ev : Event) : option (jsval * string * bool) :=
  match ev with
  | EvGetContractData address bytecode isContractCreation =>
      Some (address, bytecode, isContractCreation)
  | _ => None
  end.

(** The invocations of the per-step handler recorded in a log. *)
Definition handler_invocations (evs : list Event) : list (StructLog * TraceInfo) :=
  omap execLog_event evs.

(** The addresses whose bytecode was fetched. *)
Definition code_lookups (evs : list Event) : list jsval :=
  omap getCode_event evs.

(** The queries put to the collector. *)
Definition collector_lookups (evs : list Event) : list (jsval * string * bool) :=
  omap getContractData_event evs.

(** ** Shapes of computations *)

(** Computations that add nothing to a projection of the log. *)
Definition silent {X A} (proj : Event → option X) (m : M A) : Prop :=
  ∀ evs, omap proj (m evs).2 = omap proj evs.

(** Every computation of the tracer extends the event log it is given
    and is otherwise independent of it. *)
Definition uniform {A} (m : M A) : Prop :=
  ∀ evs, m evs = ((m []).1, evs ++ (m []).2).

(** A handler configuration under which no handler fails, for a call
    that fetched [t] and dispatches [logs] with [info]. *)
Definition handlers_succeed (traceOpts : TraceOptions) (t : Trace)
    (logs : list StructLog) (info : TraceInfo) : Prop :=
  (∀ h, onTrace traceOpts = Some h → h (Some t) = Ok tt)
  ∧ (∀ h i log, execLog traceOpts = Some h → logs !! i = Some log →
       ∃ p, h i log info = Ok p ∧ outcome p = Ok tt)
  ∧ (∀ h, exec traceOpts = Some h → h logs info = Ok tt).

(** What relates a step of the input array to the step at the same
    index of the output array, in the store [h] before and the store
    [h'] after. *)
Definition annotated_in (color : string → string) (table : PcTable)
    (inverted : FileIndex) (h h' : gmap nat StructLog) (r l : nat) : Prop :=
  h !! l = None
  ∧ ∃ log log' offset ex,
      h !! r = Some log
      ∧ h' !! l = Some log'
      ∧ table !! pc log = Some offset
      ∧ getSource color offset (inverted !! fileName offset) = Ok ex
      ∧ other_fields log' = other_fields log
      ∧ source log' = JStr (excerpt_source ex)
      ∧ sourceLine log' = Some (excerpt_sourceLine ex).

(** Lines 106-134: the part of the pipeline before the filters. *)
Definition front
    (parseSourceMap :
       gmap Z string → string → string → list (Z * string) → result PcTable)
    (augmentLogs :
       list StructLog → gmap string string → result (list StructLog * TraceInfo))
    (tr : Tracer) (receipt : TransactionReceipt) (traceOpts : TraceOptions)
    : M (option (PcTable * FileIndex) * (list StructLog * TraceInfo)) :=
  (let* tables := resolve_source parseSourceMap tr receipt in
   let* trace :=
     call (EvTraceTransaction (transactionHash receipt))
          (debug_traceTransaction (web3 (network_config tr))
             (transactionHash receipt)) in
   do match onTrace traceOpts with
      | Some onTrace => call (EvOnTrace trace) (onTrace trace)
      | None => ret tt
      end
   then
   let* structLogs := lift (read_structLogs trace) in
   let consts := default ∅ (constants traceOpts) in
   let* augmented :=
     call (EvAugmentLogs structLogs consts)
          (augmentLogs structLogs consts) in
   ret (tables, augmented))%tracer.

(** ** Sample data *)
Module Sample.

Definition step (n : Z) : StructLog :=
  {| depth := 1; error := ""; gas := 1000 - n; gasCost := 3;
     memory := None; op := "PUSH1"; pc := n; stack := [];
     storage := ∅; source := JUndefined; sourceLine := None;
     desc := None; lastDesc := None; sha := 0%nat; show := None |}.

Definition info : TraceInfo := {| lastLog := None; inv := ∅ |}.

Definition range (l1 c1 l2 c2 : Z) : SourceRange :=
  {| location := {| start := {| line := l1; column := c1 |};
                    end_ := {| line := l2; column := c2 |} |};
     fileName := "A" |}.

Definition file : list string := ["ab"; "cd"].

Definition contract : ContractData :=
  {| sourceCodes := {[ 0 := String.concat (String "010"%char "") file ]};
     sources := [(0, "A")];
     sourceMap := "creation-map";
     sourceMapRuntime := "runtime-map" |}.

(** Program counters 0 and 2 have a source range, 1 has none. *)
Definition table : PcTable := {[ 0 := range 1 0 1 1; 2 := range 1 0 2 2 ]}.

Definition raw_trace : Trace :=
  {| trace_gas := 21000; returnValue := JStr "0x";
     structLogs := [step 0; step 1; step 2] |}.

Definition node : Web3 :=
  {| eth_getCode := λ _, Ok "0x6001";
     debug_traceTransaction := λ _, Ok (Some raw_trace) |}.

Definition collector (known : bool) : TraceCollector :=
  {| getContractDataByTraceInfoIfExistsAsync :=
       λ _ _ _, Ok (if known then Some contract else None) |}.

Definition adapter : ArtifactAdapter :=
  {| collectContractsDataAsync := Ok [contract] |}.

Definition parse : gmap Z string → string → string → list (Z * string)
    → result PcTable := λ _ _ _ _, Ok table.

Definition augment : list StructLog → gmap string string
    → result (list StructLog * TraceInfo) := λ logs _, Ok (logs, info).

(** A tracer with source resolution; [known] says whether the
    collector finds the deployed bytecode among its artifacts. *)
Definition tracer (known : bool) : Tracer :=
  {| network_config := {| web3 := node; artifactAdapter := Some adapter |};
     contractsData := Some [contract];
     traceCollector := Some (collector known) |}.

(** A tracer without source resolution. *)
Definition plain_tracer : Tracer :=
  {| network_config := {| web3 := node; artifactAdapter := None |};
     contractsData := None;
     traceCollector := None |}.

Definition call_receipt : TransactionReceipt :=
  {| transactionHash := "0xabc"; contractAddress := JNull; to := JStr "0xD0" |}.

Definition creation_receipt : TransactionReceipt :=
  {| transactionHash := "0xdef"; contractAddress := JStr "0xC0"; to := JNull |}.

Definition undefined_receipt : TransactionReceipt :=
  {| transactionHash := "0x123"; contractAddress := JUndefined; to := JStr "0xD0" |}.

Definition no_options : TraceOptions :=
  {| constants := None; onTrace := None; preFilter := None;
     postFilter := None; execLog := None; exec := None |}.

Definition run (tr : Tracer) (receipt : TransactionReceipt) (o : TraceOptions) :=
  trace (blueBright true) parse augment tr receipt o [].

(** A trace whose program counters all have a source range. *)
Definition short_trace : Trace :=
  {| trace_gas := 21000; returnValue := JStr "0x";
     structLogs := [step 0; step 2] |}.

Definition resolved_tracer : Tracer :=
  {| network_config :=
       {| web3 := {| eth_getCode := λ _, Ok "0x6001";
                     debug_traceTransaction := λ _, Ok (Some short_trace) |};
          artifactAdapter := Some adapter |};
     contractsData := Some [contract];
     traceCollector := Some (collector true) |}.

(** Predicates that read the injected label. *)
Definition unannotated (s : StructLog) : bool := bool_decide (sourceLine s = None).
Definition annotated (s : StructLog) : bool := negb (unannotated s).

(** Predicates that do not. *)
Definition cheap (s : StructLog) : bool := gasCost s <? 5.
Definition early (s : StructLog) : bool := pc s <? 2.

(** A per-step handler whose second and third invocations fail, the
    third settling first. *)
Definition failing_handler (i : nat) (log : StructLog) (info : TraceInfo)
    : Promise unit :=
  match i with
  | 1%nat => {| settles_at := 5; outcome := Err (Rejected (JStr "late")) |}
  | 2%nat => {| settles_at := 3; outcome := Err (Rejected (JStr "early")) |}
  | _ => {| settles_at := 0; outcome := Ok tt |}
  end.

Definition handler_options : TraceOptions :=
  {| constants := None; onTrace := None; preFilter := None;
     postFilter := None;
     execLog := Some (λ i log info, Ok (failing_handler i log info));
     exec := None |}.

(** A store holding the two steps of [short_trace]. *)
Definition store : gmap nat StructLog := {[ 0%nat := step 0; 1%nat := step 2 ]}.

End Sample.

(** ** [rpc] and [traceTransaction] (lines 56-64)

    The provider is the collaborator here.  What matters of a call to
    [web3.currentProvider.send(request, callback)] is whether it throws
    and, if not, with which arguments it invokes the callback, in
    order; a provider that never answers invokes it not at all. *)

Record RpcRequest : Type := {
  method : string;
  params : list jsval
}.

(** The second argument of the callback: nothing ([undefined] or
    [null]), or an object, of which only the [result] property is read;
    the property is undefined when the node answered without one. *)
Inductive RpcResponse : Type :=
  | NoResponse
  | Response (result : option Trace).

Inductive SendBehaviour : Type :=
  | SendThrows (e : exn)
  | SendCallsBack (calls : list (jsval * RpcResponse)).

Record Provider : Type := {
  send : RpcRequest → SendBehaviour
}.

(** How a promise ends: [None] when it never settles. *)
Abbreviation Settlement A := (option (result A)).

(** Lines 56-58.  The promise settles with the first invocation of the
    callback: [fail(err)] when [err] is truthy, [okay(res)] otherwise;
    later invocations find it settled.  A throw inside the executor
    rejects it. *)
Definition rpc (currentProvider : Provider) (request : RpcRequest)
    : Settlement RpcResponse :=
  match send currentProvider request with
  | SendThrows e => Some (Err e)
  | SendCallsBack [] => None
  | SendCallsBack ((err, res) :: _) =>
      Some (if truthy err then Err (Rejected err) else Ok res)
  end.

(** Lines 60-64.  [let {result} = await rpc(...)] throws on a response
    that is [undefined] or [null]; the returned [result] is undefined
    when the response has none. *)
Definition traceTransaction (currentProvider : Provider) (txHash : string)
    (traceParams : jsval) : Settlement (option Trace) :=
  match rpc currentProvider
          {| method := "debug_traceTransaction";
             params := [JStr txHash; traceParams] |} with
  | None => None
  | Some (Err e) => Some (Err e)
  | Some (Ok NoResponse) =>
      Some (Err (TypeError "Cannot destructure property 'result' of undefined"))
  | Some (Ok (Response result)) => Some (Ok result)
  end.


(** ** More readings of the log and of the data *)

Definition LF : ascii := "010"%char.

(** Text without line feed. *)
Fixpoint lf_free (s : string) : bool :=
  match s with
  | "" => true
  | String c s' => negb (Ascii.eqb c LF) && lf_free s'
  end.

Definition exec_event (ev : Event) : option (list StructLog * TraceInfo) :=
  match ev with
  | EvExec logs info => Some (logs, info)
  | _ => None
  end.

Definition traceTransaction_event (ev : Event) : option string :=
  match ev with
  | EvTraceTransaction txHash => Some txHash
  | _ => None
  end.

Definition parseSourceMap_event (ev : Event) : option (string * string) :=
  match ev with
  | EvParseSourceMap sourceMap bytecodeHex => Some (sourceMap, bytecodeHex)
  | _ => None
  end.

(** The invocations of the batch handler recorded in a log. *)
Definition exec_calls (evs : list Event) : list (list StructLog * TraceInfo) :=
  omap exec_event evs.

(** A step that carries an excerpt and a label. *)
Definition annotated_step (s : StructLog) : Prop :=
  is_Some (sourceLine s) ∧ ∃ text, source s = JStr text.

(** A step source injection can annotate: its program counter has a
    source range and the file of the range is indexed. *)
Definition resolvable (table : PcTable) (inverted : FileIndex)
    (log : StructLog) : Prop :=
  ∃ offset, table !! pc log = Some offset ∧ is_Some (inverted !! fileName offset).

(** A source range given by its four numbers. *)
Definition mkRange (file : string) (L1 c1 L2 c2 : Z) : SourceRange :=
  {| location := {| start := {| line := L1; column := c1 |};
                    end_ := {| line := L2; column := c2 |} |};
     fileName := file |}.

(** The callback of the reduction of lines 120-125, as [build_inverted]
    has it. *)
Definition inverted_step (contractData : ContractData)
    (acc : result FileIndex) (entry : Z * string) : result FileIndex :=
  result_bind acc (λ acc,
    match sourceCodes contractData !! entry.1 with
    | None => Err (TypeError "Cannot read property 'split' of undefined")
    | Some code => Ok (<[entry.2 := split_lines code]> acc)
    end).

(** Decimal digits, and text made of them. *)
Definition is_digit (c : ascii) : bool :=
  (48 <=? nat_of_ascii c)%nat && (nat_of_ascii c <=? 57)%nat.

Fixpoint all_digits (s : string) : bool :=
  match s with
  | "" => true
  | String c s' => is_digit c && all_digits s'
  end.

(** A decimal numeral: an optional minus sign, then one digit or more. *)
Definition numeral (s : string) : Prop :=
  ∃ d, (s = d ∨ s = String "-" d) ∧ all_digits d = true ∧ d ≠ "".

(** ** More sample data *)
Module Cases.


(** A node that serves no bytecode. *)
Definition offline_tracer : Tracer :=
  {| network_config :=
       {| web3 := {| eth_getCode := λ _, Err (Rejected (JStr "offline"));
                     debug_traceTransaction := λ _, Ok (Some Sample.raw_trace) |};
          artifactAdapter := Some Sample.adapter |};
     contractsData := Some [Sample.contract];
     traceCollector := Some (Sample.collector true) |}.

Definition observer_options : TraceOptions :=
  {| constants := None;
     onTrace := Some (λ _, Err (Rejected (JStr "observer")));
     preFilter := None; postFilter := None; execLog := None; exec := None |}.

Definition batch_options (outcome : result unit) : TraceOptions :=
  {| constants := None; onTrace := None; preFilter := None;
     postFilter := None; execLog := None; exec := Some (λ _ _, outcome) |}.

Definition config : NetworkConfig :=
  {| web3 := Sample.node; artifactAdapter := Some Sample.adapter |}.

(** A per-step handler that is not [async]: its second invocation
    throws before any promise is made. *)
Definition throwing_handler (i : nat) (log : StructLog) (info : TraceInfo)
    : result (Promise unit) :=
  match i with
  | 1%nat => Err (Rejected (JStr "thrown"))
  | _ => Ok {| settles_at := 0; outcome := Ok tt |}
  end.

Definition throwing_options : TraceOptions :=
  {| constants := None; onTrace := None; preFilter := None;
     postFilter := None; execLog := Some throwing_handler; exec := None |}.





End Cases.

(** * Properties *)

(** ** Strings and slices *)

#[local] Arguments String.append : simpl nomatch.

Lemma append_nil_r (s : string) : s +:+ "" = s.
Proof. induction s as [|c s IH]; cbn; [done | by rewrite IH]. Qed.

Lemma append_assoc (a b c : string) : (a +:+ b) +:+ c = a +:+ (b +:+ c).
Proof. induction a as [|x a IH]; cbn; [done | by rewrite IH]. Qed.

Lemma string_take_drop (n : nat) (s : string) :
  string_take n s +:+ string_drop n s = s.
Proof.
  revert s; induction n as [|n IH]; intros [|c s]; cbn; try done.
  by rewrite IH.
Qed.

Lemma string_drop_length (n : nat) (s : string) :
  String.length (string_drop n s) = (String.length s - n)%nat.
Proof. revert s; induction n as [|n IH]; intros [|c s]; cbn; auto. Qed.

Lemma string_take_all (n : nat) (s : string) :
  (String.length s ≤ n)%nat → string_take n s = s.
Proof.
  revert s; induction n as [|n IH]; intros [|c s]; cbn; try done; try lia.
  intros Hn. rewrite IH; [done | lia].
Qed.

Lemma slice_index_range (len i : Z) : 0 ≤ len → 0 ≤ slice_index len i ≤ len.
Proof. unfold slice_index. destruct (Z.ltb_spec i 0); lia. Qed.

(** [s.slice(0, c) + s.slice(c)] is [s], for any column [c]. *)
Lemma string_slice_split (s : string) (c : Z) :
  string_slice s 0 (Some c) +:+ string_slice s c None = s.
Proof.
  unfold string_slice, slice_bounds.
  pose proof (slice_index_range (Z.of_nat (String.length s)) c ltac:(lia)) as Hc.
  set (f := slice_index (Z.of_nat (String.length s)) c) in *.
  assert (slice_index (Z.of_nat (String.length s)) 0 = 0) as ->.
  { unfold slice_index. cbn. lia. }
  replace (Z.to_nat (Z.max (f - 0) 0)) with (Z.to_nat f) by lia.
  cbn [Z.to_nat string_drop].
  rewrite (string_take_all _ (string_drop (Z.to_nat f) s)).
  - apply string_take_drop.
  - rewrite string_drop_length. lia.
Qed.

(** ** Highlight markers *)

Lemma esc_free_app (a b : string) :
  esc_free (a +:+ b) = esc_free a && esc_free b.
Proof.
  induction a as [|c a IH]; cbn; [done |].
  rewrite IH. by rewrite andb_assoc.
Qed.

Lemma esc_free_take (n : nat) (s : string) :
  esc_free s = true → esc_free (string_take n s) = true.
Proof.
  revert s; induction n as [|n IH]; intros [|c s]; cbn; try done.
  intros [Hc Hs]%andb_prop. rewrite Hc. cbn. by apply IH.
Qed.

Lemma esc_free_drop (n : nat) (s : string) :
  esc_free s = true → esc_free (string_drop n s) = true.
Proof.
  revert s; induction n as [|n IH]; intros [|c s]; cbn; try done.
  intros [_ Hs]%andb_prop. by apply IH.
Qed.

Lemma esc_free_slice (s : string) (a : Z) (b : option Z) :
  esc_free s = true → esc_free (string_slice s a b) = true.
Proof.
  intros Hs. unfold string_slice.
  destruct (slice_bounds _ _ _) as [k n].
  by apply esc_free_take, esc_free_drop.
Qed.

(** Text without escape characters passes through the stripper. *)
Lemma strip_plain_app (a rest : string) :
  esc_free a = true →
  strip_markers (a +:+ rest) = a +:+ strip_markers rest.
Proof.
  unfold strip_markers.
  induction a as [|c a IH]; cbn; [done |].
  intros [Hc Ha]%andb_prop. apply negb_true_iff in Hc. rewrite Hc.
  by rewrite IH.
Qed.

Lemma strip_open (rest : string) :
  strip_markers (sgr_open +:+ rest) = strip_markers rest.
Proof. reflexivity. Qed.

Lemma strip_close (rest : string) :
  strip_markers (sgr_close +:+ rest) = strip_markers rest.
Proof. reflexivity. Qed.

(** A highlighted slice strips back to the slice. *)
Lemma strip_blueBright_app (enabled : bool) (s rest : string) :
  esc_free s = true →
  strip_markers (blueBright enabled s +:+ rest) = s +:+ strip_markers rest.
Proof.
  intros Hs. unfold blueBright.
  destruct (enabled && negb (s =? ""))%string.
  - rewrite !append_assoc, strip_open, strip_plain_app by done.
    by rewrite strip_close.
  - by apply strip_plain_app.
Qed.

(** ** The excerpt *)

Lemma excerpt_step_acc color lines startCol endCol acc l i :
  excerpt_step color lines startCol endCol acc l i
  = acc +:+ excerpt_step color lines startCol endCol "" l i.
Proof.
  unfold excerpt_step.
  destruct (_ && _); [done |]. destruct (Nat.eqb i 0); [done |].
  by destruct (_ =? _).
Qed.

Lemma reduce_from_acc color lines startCol endCol l i acc :
  reduce_from (excerpt_step color lines startCol endCol) i l acc
  = acc +:+ reduce_from (excerpt_step color lines startCol endCol) i l "".
Proof.
  revert i acc; induction l as [|x l IH]; intros i acc; simpl.
  - by rewrite append_nil_r.
  - rewrite IH, (IH _ (excerpt_step _ _ _ _ "" _ _)), excerpt_step_acc.
    by rewrite append_assoc.
Qed.

Lemma glue_lines_cons (x : string) (l : list string) :
  glue_lines (x :: l) = x +:+ glue_lines l.
Proof. destruct l; unfold glue_lines; simpl; [by rewrite append_nil_r | done]. Qed.

(** What one line of a range of two lines or more contributes, with the
    markers removed: the line itself. *)
Lemma strip_excerpt_step enabled lines startCol endCol l i rest :
  (2 ≤ length lines)%nat →
  esc_free l = true →
  strip_markers
    (excerpt_step (blueBright enabled) lines startCol endCol "" l i +:+ rest)
  = l +:+ strip_markers rest.
Proof.
  intros Hlen Hl. unfold excerpt_step.
  destruct (Nat.eqb_spec i 0) as [-> | Hi].
  - destruct (Z.eqb_spec (Z.of_nat 0) (Z.of_nat (length lines) - 1)); [lia |].
    simpl. rewrite append_assoc.
    rewrite strip_plain_app, strip_blueBright_app by by apply esc_free_slice.
    by rewrite <- append_assoc, string_slice_split.
  - rewrite andb_false_l.
    destruct (Z.eqb_spec (Z.of_nat i) (Z.of_nat (length lines) - 1)); simpl.
    + rewrite append_assoc.
      rewrite strip_blueBright_app, strip_plain_app by by apply esc_free_slice.
      by rewrite <- append_assoc, string_slice_split.
    + by apply strip_blueBright_app.
Qed.

Lemma strip_reduce_from enabled lines startCol endCol l i :
  (2 ≤ length lines)%nat →
  Forall (λ x, esc_free x = true) l →
  strip_markers
    (reduce_from (excerpt_step (blueBright enabled) lines startCol endCol) i l "")
  = glue_lines l.
Proof.
  intros Hlen Hl. revert i; induction Hl as [|x l Hx Hl IH]; intros i.
  - done.
  - simpl. rewrite reduce_from_acc, strip_excerpt_step by done.
    by rewrite IH, glue_lines_cons.
Qed.

(** [sourceFile.slice(L1 - 1, L2)] is lines [L1 .. L2], as far as the
    file has them. *)
Lemma array_slice_file_lines (file : list string) (L1 L2 : Z) :
  1 ≤ L1 → L1 ≤ L2 →
  array_slice file (L1 - 1) (Some L2) = file_lines file L1 L2.
Proof.
  intros H1 H12. unfold array_slice, slice_bounds, file_lines, slice_index.
  destruct (Z.ltb_spec (L1 - 1) 0); [lia |].
  destruct (Z.ltb_spec L2 0); [lia |].
  destruct (Z.le_gt_cases L2 (Z.of_nat (length file))) as [H2 | H2].
  - f_equal; [lia |]. f_equal. lia.
  - destruct (Z.le_gt_cases (L1 - 1) (Z.of_nat (length file))) as [Hk | Hk].
    + replace (Z.to_nat (Z.min (L1 - 1) (Z.of_nat (length file))))
        with (Z.to_nat (L1 - 1)) by lia.
      rewrite !take_ge; [done | |]; rewrite length_drop; lia.
    + rewrite !drop_ge by lia. by rewrite !take_nil.
Qed.

Lemma file_lines_length (file : list string) (L1 L2 : Z) :
  1 ≤ L1 → L1 < L2 → L1 < Z.of_nat (length file) →
  (2 ≤ length (file_lines file L1 L2))%nat.
Proof.
  intros H1 H12 H2. unfold file_lines. rewrite length_take, length_drop. lia.
Qed.

(** C2, as the code has it.  For a range from line L1 to a later line
    L2, in a file that has lines L1 and L1 + 1 at least, removing the
    highlight markers from the excerpt gives the lines L1 .. L2 of the
    file put one after the other: the text of every line is reproduced
    exactly, and no line break separates the lines.  (The file holds no
    escape character; the markers are chalk's, enabled or not.) *)
Theorem excerpt_strip_multi_line (enabled : bool) (file : list string)
    (offset : SourceRange) :
  Forall (λ l, esc_free l = true) file →
  1 ≤ line (start (location offset)) →
  line (start (location offset)) < line (end_ (location offset)) →
  line (start (location offset)) < Z.of_nat (length file) →
  ∃ ex,
    getSource (blueBright enabled) offset (Some file) = Ok ex
    ∧ strip_markers (excerpt_source ex)
      = glue_lines (file_lines file (line (start (location offset)))
                               (line (end_ (location offset)))).
Proof.
  intros Hfile H1 H12 H2. eexists; split; [reflexivity |]. simpl.
  rewrite array_slice_file_lines by lia.
  apply strip_reduce_from.
  - by apply file_lines_length.
  - unfold file_lines. by apply Forall_take, Forall_drop.
Qed.

(** C2, as the specification words it, fails: the excerpt of lines
    "ab" and "cd" strips to "abcd", which is not "ab", a line break,
    "cd". *)
Lemma excerpt_strip_line_breaks_counterexample :
  ¬ (∀ (enabled : bool) (file : list string) (offset : SourceRange) (ex : Excerpt),
       Forall (λ l, esc_free l = true) file →
       1 ≤ line (start (location offset)) →
       line (start (location offset)) < line (end_ (location offset)) →
       line (start (location offset)) < Z.of_nat (length file) →
       getSource (blueBright enabled) offset (Some file) = Ok ex →
       strip_markers (excerpt_source ex)
       = join_lines (file_lines file (line (start (location offset)))
                                (line (end_ (location offset))))).
Proof.
  intros H.
  specialize (H true Sample.file (Sample.range 1 0 2 2) _
                ltac:(repeat constructor) ltac:(simpl; lia) ltac:(simpl; lia)
                ltac:(simpl; lia) eq_refl).
  vm_compute in H. discriminate H.
Qed.

(** ** The location label *)

(** C6.  The label is [<file>:<line>[<startCol>-<endCol>]] when the range
    starts and ends on the same line and
    [<file>:<startLine>[<startCol>]-<endLine>[<endCol>]] otherwise, the
    numbers in decimal; the two ranges of the specification on file "A"
    give "A:10[4-9]" and "A:12[2]-14[5]". *)
Theorem getSource_label :
  (∀ (color : string → string) (file : string) (L1 c1 L2 c2 : Z)
     (sourceFile : list string),
     ∃ ex,
       getSource color
         {| location := {| start := {| line := L1; column := c1 |};
                           end_ := {| line := L2; column := c2 |} |};
            fileName := file |} (Some sourceFile) = Ok ex
       ∧ excerpt_sourceLine ex
         = if decide (L1 = L2)
           then file +:+ ":" +:+ js_number_to_string L1 +:+ "["
                  +:+ js_number_to_string c1 +:+ "-"
                  +:+ js_number_to_string c2 +:+ "]"
           else file +:+ ":" +:+ js_number_to_string L1 +:+ "["
                  +:+ js_number_to_string c1 +:+ "]-"
                  +:+ js_number_to_string L2 +:+ "["
                  +:+ js_number_to_string c2 +:+ "]")
  ∧ (∀ (color : string → string) (sourceFile : list string),
       ∃ ex,
         getSource color (Sample.range 10 4 10 9) (Some sourceFile) = Ok ex
         ∧ excerpt_sourceLine ex = "A:10[4-9]")
  ∧ (∀ (color : string → string) (sourceFile : list string),
       ∃ ex,
         getSource color (Sample.range 12 2 14 5) (Some sourceFile) = Ok ex
         ∧ excerpt_sourceLine ex = "A:12[2]-14[5]").
Proof.
  split; [| split].
  - intros color file L1 c1 L2 c2 sourceFile.
    eexists; split; [reflexivity |]. simpl.
    destruct (Z.eqb_spec L1 L2); by case_decide.
  - intros. eexists; split; reflexivity.
  - intros. eexists; split; reflexivity.
Qed.

(** ** The pipeline *)

Lemma uniform_ret {A} (a : A) : uniform (ret a).
Proof. intros evs. unfold ret. simpl. by rewrite app_nil_r. Qed.

Lemma uniform_throw {A} (e : exn) : uniform (@throw A e).
Proof. intros evs. unfold throw. simpl. by rewrite app_nil_r. Qed.

Lemma uniform_lift {A} (r : result A) : uniform (lift r).
Proof. intros evs. unfold lift. simpl. by rewrite app_nil_r. Qed.

Lemma uniform_call {A} (ev : Event) (r : result A) : uniform (call ev r).
Proof. intros evs. done. Qed.

Lemma uniform_bind {A B} (m : M A) (k : A → M B) :
  uniform m → (∀ a, uniform (k a)) → uniform (bind m k).
Proof.
  intros Hm Hk evs. unfold bind. rewrite (Hm evs).
  destruct (m []) as [[a | e] new]; simpl.
  - rewrite (Hk a (evs ++ new)), (Hk a new). simpl. by rewrite app_assoc.
  - done.
Qed.

Lemma uniform_invoke_from h info i logs : uniform (invoke_from h info i logs).
Proof.
  revert i; induction logs as [|log logs IH]; intros i; simpl.
  - apply uniform_ret.
  - apply uniform_bind; [apply uniform_call | intros p].
    apply uniform_bind; [apply IH | intros ps; apply uniform_ret].
Qed.

Ltac uniform_step :=
  first
    [ apply uniform_bind; [| intros ?]
    | apply uniform_invoke_from
    | apply uniform_ret | apply uniform_throw | apply uniform_lift
    | apply uniform_call
    | match goal with |- uniform (match ?x with _ => _ end) => destruct x end ].

Section PipelineFacts.

Variable color : string → string.
Variable parseSourceMap :
  gmap Z string → string → string → list (Z * string) → result PcTable.
Variable augmentLogs :
  list StructLog → gmap string string → result (list StructLog * TraceInfo).

Lemma uniform_resolve_source tr receipt :
  uniform (resolve_source parseSourceMap tr receipt).
Proof. unfold resolve_source. repeat uniform_step. Qed.

Lemma uniform_prepare tr receipt traceOpts :
  uniform (prepare color parseSourceMap augmentLogs tr receipt traceOpts).
Proof.
  unfold prepare.
  apply uniform_bind; [apply uniform_resolve_source | intros ?].
  repeat uniform_step.
Qed.

Lemma uniform_dispatch traceOpts logs info :
  uniform (dispatch traceOpts logs info).
Proof. unfold dispatch. repeat uniform_step. Qed.

Lemma uniform_trace tr receipt traceOpts :
  uniform (trace color parseSourceMap augmentLogs tr receipt traceOpts).
Proof.
  unfold trace.
  apply uniform_bind; [apply uniform_prepare | intros ?].
  apply uniform_bind; [apply uniform_dispatch | intros ?].
  apply uniform_ret.
Qed.


Lemma earliest_rejection_None {A} (ps : list (Promise A)) :
  (∀ p, p ∈ ps → ∃ a, outcome p = Ok a) → earliest_rejection ps = None.
Proof.
  induction ps as [|p ps IH]; intros Hall; simpl; [done |].
  destruct (Hall p) as [a ->]; [by left |].
  apply IH. intros q Hq. apply Hall. by right.
Qed.

Lemma invoke_from_cons h info i log logs evs :
  invoke_from h info i (log :: logs) evs
  = match h i log info with
    | Err e => (Err e, evs ++ [EvExecLog log info])
    | Ok p =>
        match invoke_from h info (S i) logs (evs ++ [EvExecLog log info]) with
        | (Ok ps, evs') => (Ok (p :: ps), evs')
        | (Err e, evs') => (Err e, evs')
        end
    end.
Proof.
  cbn [invoke_from]. unfold bind, call, ret.
  destruct (h i log info); [| done].
  by destruct (invoke_from h info (S i) logs _) as [[|] ?].
Qed.

(** What the map of line 154 does: either every call of the handler
    returns a promise, and then all steps are handed over, or some call
    throws, and then the first such call is the last one made. *)
Lemma invoke_from_cases h info logs :
  ∀ i evs,
    (∃ ps,
       invoke_from h info i logs evs
       = (Ok ps, evs ++ ((λ log, EvExecLog log info) <$> logs))
       ∧ length ps = length logs
       ∧ ∀ j log, logs !! j = Some log →
           ∃ p, ps !! j = Some p ∧ h (i + j)%nat log info = Ok p)
    ∨ (∃ k log e,
         logs !! k = Some log
         ∧ h (i + k)%nat log info = Err e
         ∧ (∀ j log', (j < k)%nat → logs !! j = Some log' →
              ∃ p, h (i + j)%nat log' info = Ok p)
         ∧ invoke_from h info i logs evs
           = (Err e, evs ++ ((λ log, EvExecLog log info) <$> take (S k) logs))).
Proof.
  induction logs as [|log logs IH]; intros i evs.
  - left. exists []. cbn [invoke_from]. unfold ret. rewrite app_nil_r.
    split; [done |]. split; [done |]. by intros j log [=].
  - rewrite !invoke_from_cons.
    destruct (h i log info) as [p | e] eqn:Hp.
    + destruct (IH (S i) (evs ++ [EvExecLog log info]))
        as [(ps & -> & Hlen & Hps) | (k & log' & e & Hk & He & Hbefore & ->)].
      * left. exists (p :: ps). rewrite fmap_cons, <- app_assoc.
        split; [done |]. split; [by rewrite !length_cons, Hlen |].
        intros [|j] log' Hj; simpl in *.
        -- injection Hj as <-. rewrite Nat.add_0_r. eauto.
        -- destruct (Hps j log' Hj) as (q & Hq & Hh). exists q.
           split; [done |]. by rewrite <- Nat.add_succ_comm.
      * right. exists (S k), log', e. split; [done |].
        split; [by rewrite <- Nat.add_succ_comm |]. split.
        -- intros [|j] log'' Hlt Hj; simpl in *.
           ++ injection Hj as <-. rewrite Nat.add_0_r. eauto.
           ++ rewrite <- Nat.add_succ_comm. apply (Hbefore j); [lia | done].
        -- cbn [take]. by rewrite fmap_cons, <- app_assoc.
    + right. exists 0%nat, log, e. rewrite Nat.add_0_r.
      split; [done |]. split; [done |]. split; [intros; lia |].
      cbn [take]. by rewrite take_0.
Qed.

(** When every call returns a promise, the promises are those of the
    steps, index by index. *)
Lemma invoke_from_returns h info logs evs :
  (∀ j log, logs !! j = Some log → ∃ p, h j log info = Ok p) →
  ∃ ps,
    invoke_from h info 0 logs evs
    = (Ok ps, evs ++ ((λ log, EvExecLog log info) <$> logs))
    ∧ (∀ p, p ∈ ps ↔ ∃ j log, logs !! j = Some log ∧ h j log info = Ok p)
    ∧ ∀ j p, ps !! j = Some p → ∃ log, logs !! j = Some log ∧ h j log info = Ok p.
Proof.
  intros Hall.
  destruct (invoke_from_cases h info logs 0 evs)
    as [(ps & Hrun & Hlen & Hps) | (k & log & e & Hk & He & _)].
  - exists ps. split; [done |].
    assert (∀ j p, ps !! j = Some p →
              ∃ log, logs !! j = Some log ∧ h j log info = Ok p) as Hinv.
    { intros j p Hj.
      destruct (logs !! j) as [log |] eqn:Hlog.
      - destruct (Hps j log Hlog) as (q & Hq & Hh). simpl in Hh.
        exists log. split; [done |]. congruence.
      - apply lookup_ge_None in Hlog. apply lookup_lt_Some in Hj. lia. }
    split; [| done]. intros p. split.
    + intros [j Hj]%list_elem_of_lookup.
      destruct (Hinv j p Hj) as (log & Hlog & Hh). eauto.
    + intros (j & log & Hlog & Hh).
      destruct (Hps j log Hlog) as (q & Hq & Hh'). simpl in Hh'.
      apply list_elem_of_lookup. exists j. congruence.
  - destruct (Hall k log Hk) as [p Hp]. simpl in He. congruence.
Qed.

(** With every handler succeeding, dispatch succeeds. *)
Lemma dispatch_ok traceOpts t logs info evs :
  handlers_succeed traceOpts t logs info →
  (dispatch traceOpts logs info evs).1 = Ok tt.
Proof.
  intros (_ & HexecLog & Hexec). unfold dispatch, bind.
  destruct (execLog traceOpts) as [h |] eqn:Eh.
  - destruct (invoke_from_returns h info logs evs) as (ps & -> & Hps & _).
    { intros j log Hlog. destruct (HexecLog h j log eq_refl Hlog) as (p & ? & _).
      eauto. }
    unfold lift, promise_all. rewrite earliest_rejection_None.
    2:{ intros p (j & log & Hlog & Hh)%Hps.
        destruct (HexecLog h j log eq_refl Hlog) as (q & Hq & Hout).
        exists tt. congruence. }
    unfold ret. destruct (exec traceOpts) as [g |]; simpl; [| done].
    by apply Hexec.
  - unfold ret. destruct (exec traceOpts) as [g |]; simpl; [| done].
    by apply Hexec.
Qed.

(** What [prepare] yields on the way to a result leaves through
    [trace] unchanged. *)
Lemma trace_returns_prepared tr receipt traceOpts evs out :
  (trace color parseSourceMap augmentLogs tr receipt traceOpts evs).1 = Ok out →
  ∃ info evs',
    prepare color parseSourceMap augmentLogs tr receipt traceOpts evs
    = (Ok (out, info), evs').
Proof.
  unfold trace, bind.
  destruct (prepare _ _ _ _ _ _ _) as [[[logs info] | e] evs']; [| done].
  simpl. destruct (dispatch _ _ _ _) as [[[] | e] evs'']; [| done].
  unfold ret. simpl. intros [= ->]. eauto.
Qed.

(** The prefix of the pipeline for a tracer without source
    resolution. *)
Lemma prepare_plain tr receipt traceOpts evs t augmented info :
  traceCollector tr = None →
  debug_traceTransaction (web3 (network_config tr)) (transactionHash receipt)
    = Ok (Some t) →
  augmentLogs (structLogs t) (default ∅ (constants traceOpts))
    = Ok (augmented, info) →
  (∀ h, onTrace traceOpts = Some h → h (Some t) = Ok tt) →
  ∃ evs',
    prepare color parseSourceMap augmentLogs tr receipt traceOpts evs
    = (Ok (filter_opt (postFilter traceOpts)
             (filter_opt (preFilter traceOpts) augmented), info), evs').
Proof.
  intros Htc Hrpc Haug Hobs.
  unfold prepare, resolve_source, bind. rewrite Htc.
  unfold ret at 1. unfold call at 1. rewrite Hrpc.
  destruct (onTrace traceOpts) as [h |] eqn:Eh.
  - unfold call at 1. rewrite (Hobs h eq_refl).
    unfold lift at 1; cbn [read_structLogs].
    unfold call. rewrite Haug. simpl. eauto.
  - unfold ret at 1. unfold lift at 1; cbn [read_structLogs].
    unfold call. rewrite Haug. simpl. eauto.
Qed.


Lemma prepare_plain_inv tr receipt traceOpts evs t augmented info logs info' evs' :
  traceCollector tr = None →
  debug_traceTransaction (web3 (network_config tr)) (transactionHash receipt)
    = Ok (Some t) →
  augmentLogs (structLogs t) (default ∅ (constants traceOpts))
    = Ok (augmented, info) →
  prepare color parseSourceMap augmentLogs tr receipt traceOpts evs
    = (Ok (logs, info'), evs') →
  logs = filter_opt (postFilter traceOpts)
           (filter_opt (preFilter traceOpts) augmented)
  ∧ info' = info.
Proof.
  intros Htc Hrpc Haug.
  unfold prepare, resolve_source, bind. rewrite Htc.
  unfold ret at 1. unfold call at 1. rewrite Hrpc.
  destruct (onTrace traceOpts) as [h |] eqn:Eh.
  - unfold call at 1. destruct (h (Some t)) as [[] | e]; [| done].
    unfold lift at 1; cbn [read_structLogs].
    unfold call. rewrite Haug. simpl. by intros [= <- <- _].
  - unfold ret at 1. unfold lift at 1; cbn [read_structLogs].
    unfold call. rewrite Haug. simpl. by intros [= <- <- _].
Qed.

(** C3.  On a tracer without source resolution, with neither filter
    configured, and with an augmentation that keeps the steps in
    place (the i-th augmented step carries the raw fields of the i-th
    raw step), whatever [trace] returns is the augmented sequence: as
    many steps as the raw trace has, in the order the VM executed
    them.  When no handler fails, [trace] does return. *)
Theorem trace_without_filters tr receipt traceOpts evs t augmented info :
  traceCollector tr = None →
  preFilter traceOpts = None →
  postFilter traceOpts = None →
  debug_traceTransaction (web3 (network_config tr)) (transactionHash receipt)
    = Ok (Some t) →
  augmentLogs (structLogs t) (default ∅ (constants traceOpts))
    = Ok (augmented, info) →
  raw_fields <$> augmented = raw_fields <$> structLogs t →
  (∀ out,
     (trace color parseSourceMap augmentLogs tr receipt traceOpts evs).1 = Ok out →
     length out = length (structLogs t)
     ∧ raw_fields <$> out = raw_fields <$> structLogs t
     ∧ out = augmented)
  ∧ (handlers_succeed traceOpts t augmented info →
     (trace color parseSourceMap augmentLogs tr receipt traceOpts evs).1
     = Ok augmented).
Proof.
  intros Htc Hpre Hpost Hrpc Haug Hraw. split.
  - intros out (info' & evs' & Hprep)%trace_returns_prepared.
    destruct (prepare_plain_inv _ _ _ _ _ _ _ _ _ _ Htc Hrpc Haug Hprep)
      as [-> _].
    rewrite Hpre, Hpost. simpl. split; [| done].
    by rewrite <- (length_fmap raw_fields augmented), Hraw, length_fmap.
  - intros Hok.
    destruct (prepare_plain _ _ _ evs _ _ _ Htc Hrpc Haug (proj1 Hok))
      as [evs' Hprep].
    rewrite Hpre, Hpost in Hprep. simpl in Hprep.
    unfold trace, bind. rewrite Hprep. simpl.
    pose proof (dispatch_ok traceOpts t augmented info evs' Hok) as Hd.
    destruct (dispatch _ _ _ _) as [[[] | e] evs'']; [done | done].
Qed.

End PipelineFacts.

(** ** Dispatch to the per-step handler *)

Lemma silent_ret {X A} (proj : Event → option X) (a : A) : silent proj (ret a).
Proof. done. Qed.

Lemma silent_throw {X A} (proj : Event → option X) (e : exn) :
  silent proj (@throw A e).
Proof. done. Qed.

Lemma silent_lift {X A} (proj : Event → option X) (r : result A) :
  silent proj (lift r).
Proof. done. Qed.

Lemma silent_call {X A} (proj : Event → option X) (ev : Event) (r : result A) :
  proj ev = None → silent proj (call ev r).
Proof.
  intros Hev evs. unfold call. simpl.
  rewrite omap_app. simpl. by rewrite Hev, app_nil_r.
Qed.

Lemma silent_bind {X A B} (proj : Event → option X) (m : M A) (k : A → M B) :
  silent proj m → (∀ a, silent proj (k a)) → silent proj (bind m k).
Proof.
  intros Hm Hk evs. unfold bind. specialize (Hm evs).
  destruct (m evs) as [[a | e] evs']; simpl in *; [| done].
  by rewrite Hk.
Qed.

Lemma silent_invoke_from {X} (proj : Event → option X) h info i logs :
  (∀ log, proj (EvExecLog log info) = None) →
  silent proj (invoke_from h info i logs).
Proof.
  intros Hproj. revert i; induction logs as [|log logs IH]; intros i; simpl.
  - apply silent_ret.
  - apply silent_bind; [by apply silent_call | intros p].
    apply silent_bind; [apply IH | intros ps; apply silent_ret].
Qed.

Ltac silent_step :=
  first
    [ apply silent_bind; [| intros ?]
    | apply silent_invoke_from; intros ?; reflexivity
    | apply silent_ret | apply silent_throw | apply silent_lift
    | apply silent_call; reflexivity
    | match goal with |- silent _ (match ?x with _ => _ end) => destruct x end ].

Lemma handler_invocations_app (a b : list Event) :
  handler_invocations (a ++ b) = handler_invocations a ++ handler_invocations b.
Proof. apply omap_app. Qed.

Lemma handler_invocations_execLog (logs : list StructLog) (info : TraceInfo) :
  handler_invocations ((λ log, EvExecLog log info) <$> logs)
  = (λ log, (log, info)) <$> logs.
Proof.
  induction logs as [|log logs IH]; [done |].
  rewrite !fmap_cons. unfold handler_invocations in *. cbn. by f_equal.
Qed.

Lemma earliest_rejection_is_Some {A} (ps : list (Promise A)) (p : Promise A) (e : exn) :
  p ∈ ps → outcome p = Err e → is_Some (earliest_rejection ps).
Proof.
  intros Hin Hp.
  induction Hin as [p l | p x l Hin IH]; simpl.
  - rewrite Hp. destruct (earliest_rejection l) as [[? ?] |]; [case_match |]; eauto.
  - destruct (outcome x); [by apply IH |].
    destruct (earliest_rejection l) as [[? ?] |]; [case_match |]; eauto.
Qed.

(** The rejection [Promise.all] reports is the rejection of one of its
    promises, and none of them rejects earlier. *)
Lemma earliest_rejection_Some {A} (ps : list (Promise A)) (t : nat) (e : exn) :
  earliest_rejection ps = Some (t, e) →
  (∃ i p, ps !! i = Some p ∧ outcome p = Err e ∧ settles_at p = t)
  ∧ (∀ q e', q ∈ ps → outcome q = Err e' → (t ≤ settles_at q)%nat).
Proof.
  revert t e; induction ps as [|p ps IH]; intros t e; simpl; [done |].
  destruct (outcome p) as [a | ep] eqn:Ep.
  - intros [(i & q & Hq & Ho & Ht) Hmin]%IH. split.
    + exists (S i), q. done.
    + intros q' e' [-> | Hin]%elem_of_cons Hq'; [congruence | eauto].
  - destruct (earliest_rejection ps) as [[t' e'] |] eqn:Er.
    + destruct (IH t' e' eq_refl) as [(i & q & Hq & Ho & Ht) Hmin].
      destruct (Nat.ltb_spec t' (settles_at p)); intros [= <- <-].
      * split; [exists (S i), q; done |].
        intros q' e'' [-> | Hin]%elem_of_cons Hq'; [lia | eauto].
      * split; [exists 0%nat, p; done |].
        intros q' e'' [-> | Hin]%elem_of_cons Hq'; [lia |].
        specialize (Hmin q' e'' Hin Hq'). lia.
    + intros [= <- <-]. split; [exists 0%nat, p; done |].
      intros q' e'' [-> | Hin]%elem_of_cons Hq'; [lia |].
      destruct (earliest_rejection_is_Some ps q' e'' Hin Hq') as [? Hsome].
      congruence.
Qed.


Section Dispatch.

Variable color : string → string.
Variable parseSourceMap :
  gmap Z string → string → string → list (Z * string) → result PcTable.
Variable augmentLogs :
  list StructLog → gmap string string → result (list StructLog * TraceInfo).

(** The pipeline up to the post-filter, once source resolution, the
    fetch, the observer and the augmentation have succeeded. *)
Lemma prepare_resolved tr receipt traceOpts evs tables evs1 t augmented
    info :
  resolve_source parseSourceMap tr receipt evs = (Ok tables, evs1) →
  debug_traceTransaction (web3 (network_config tr)) (transactionHash receipt)
    = Ok (Some t) →
  (∀ h, onTrace traceOpts = Some h → h (Some t) = Ok tt) →
  augmentLogs (structLogs t) (default ∅ (constants traceOpts))
    = Ok (augmented, info) →
  ∃ evs',
    prepare color parseSourceMap augmentLogs tr receipt traceOpts evs
    = match inject_source color tables
              (filter_opt (preFilter traceOpts) augmented) with
      | Ok filteredLogs =>
          (Ok (filter_opt (postFilter traceOpts) filteredLogs, info), evs')
      | Err e => (Err e, evs')
      end.
Proof.
  intros Hres Hrpc Hobs Haug. unfold prepare. unfold bind at 1. rewrite Hres.
  unfold bind at 1, call at 1. rewrite Hrpc.
  unfold bind at 1.
  destruct (onTrace traceOpts) as [h |] eqn:Eh.
  - unfold call at 1. rewrite (Hobs h eq_refl).
    unfold bind, call, lift, ret. cbn [read_structLogs]. rewrite Haug. simpl.
    eexists. by destruct (inject_source _ _ _).
  - unfold ret at 1.
    unfold bind, call, lift, ret. cbn [read_structLogs]. rewrite Haug. simpl.
    eexists. by destruct (inject_source _ _ _).
Qed.

Lemma quiet_prepare tr receipt traceOpts evs :
  handler_invocations
    (prepare color parseSourceMap augmentLogs tr receipt traceOpts evs).2
  = handler_invocations evs.
Proof.
  revert evs. change (silent execLog_event
    (prepare color parseSourceMap augmentLogs tr receipt traceOpts)).
  unfold prepare, resolve_source. repeat silent_step.
Qed.

(** Lines 151-155 when a per-step handler is configured. *)
Lemma dispatch_execLog traceOpts h logs info evs :
  execLog traceOpts = Some h →
  dispatch traceOpts logs info evs
  = match invoke_from h info 0 logs evs with
    | (Err e, evs') => (Err e, evs')
    | (Ok promises, evs') =>
        match promise_all promises with
        | Err e => (Err e, evs')
        | Ok _ =>
            match exec traceOpts with
            | Some g => (g logs info, evs' ++ [EvExec logs info])
            | None => (Ok tt, evs')
            end
        end
    end.
Proof.
  intros Hh. unfold dispatch, bind, lift, ret, call. rewrite Hh.
  destruct (invoke_from h info 0 logs evs) as [[ps | e] evs']; [| done].
  destruct (promise_all ps) as [vs | e]; [| done].
  by destruct (exec traceOpts).
Qed.

(** The code's filter, read as the steps on which the predicate
    holds. *)
Lemma filter_opt_surviving p (steps : list StructLog) :
  filter_opt p steps = surviving p steps.
Proof.
  destruct p as [P |]; simpl; [| done].
  induction steps as [|s steps IH]; simpl; [done |].
  rewrite filter_cons. destruct (P s) eqn:Hs.
  - rewrite decide_True by done. by rewrite IH.
  - rewrite decide_False by congruence. done.
Qed.

(** Dispatch to the per-step handler over the steps [logs]. *)
Lemma dispatch_per_step traceOpts h logs info evs :
  execLog traceOpts = Some h →
  ((∀ i log, logs !! i = Some log → ∃ p, h i log info = Ok p) →
   handler_invocations (dispatch traceOpts logs info evs).2
   = handler_invocations evs ++ ((λ log, (log, info)) <$> logs))
  ∧ (∀ k log e,
       logs !! k = Some log →
       h k log info = Err e →
       (∀ j log', (j < k)%nat → logs !! j = Some log' →
          ∃ p, h j log' info = Ok p) →
       dispatch traceOpts logs info evs
       = (Err e, evs ++ ((λ log, EvExecLog log info) <$> take (S k) logs)))
  ∧ ((∃ i log e, logs !! i = Some log ∧ failure_of (h i log info) = Some e) →
     ∃ j log e,
       logs !! j = Some log
       ∧ failure_of (h j log info) = Some e
       ∧ (dispatch traceOpts logs info evs).1 = Err e).
Proof.
  intros Hh. rewrite (dispatch_execLog _ _ _ _ _ Hh).
  destruct (invoke_from_cases h info logs 0 evs)
    as [(ps & Hrun & Hlen & Hps) | (k & log & e & Hk & He & Hbefore & Hrun)];
    rewrite Hrun; simpl in *.
  - assert (∀ j p, ps !! j = Some p →
              ∃ log, logs !! j = Some log ∧ h j log info = Ok p) as Hinv.
    { intros j p Hj. destruct (logs !! j) as [log |] eqn:Hlog.
      - destruct (Hps j log Hlog) as (q & Hq & Hq'). exists log.
        split; [done |]. congruence.
      - apply lookup_ge_None in Hlog. apply lookup_lt_Some in Hj. lia. }
    split; [| split].
    + intros _.
      destruct (promise_all ps) as [vs | e]; simpl;
        [destruct (exec traceOpts) as [g |]; simpl |];
        rewrite ?handler_invocations_app, handler_invocations_execLog;
        simpl; by rewrite ?app_nil_r.
    + intros k log e Hk He _.
      destruct (Hps k log Hk) as (p & _ & Hp). congruence.
    + intros (i & log & e & Hlog & Hfail).
      destruct (Hps i log Hlog) as (p & Hp & Hhp).
      rewrite Hhp in Hfail. simpl in Hfail.
      destruct (outcome p) as [|e0] eqn:Hout; [done |]. injection Hfail as ->.
      assert (p ∈ ps) as Hin by (apply list_elem_of_lookup; eauto).
      destruct (earliest_rejection_is_Some _ _ _ Hin Hout) as [[t e'] Her].
      destruct (earliest_rejection_Some _ _ _ Her) as [(j & q & Hq & Ho & _) _].
      destruct (Hinv j q Hq) as (log' & Hlog' & Hhq).
      exists j, log', e'. split; [done |]. split.
      * rewrite Hhq. simpl. by rewrite Ho.
      * unfold promise_all. by rewrite Her.
  - split; [| split].
    + intros Hall. destruct (Hall k log Hk) as [p Hp]. congruence.
    + intros k' log' e' Hk' He' Hbefore'.
      destruct (Nat.lt_trichotomy k k') as [Hlt | [<- | Hlt]].
      * destruct (Hbefore' k log Hlt Hk) as [p Hp]. congruence.
      * congruence.
      * destruct (Hbefore k' log' Hlt Hk') as [p Hp]. congruence.
    + intros _. exists k, log, e. split; [done |]. split; [| done].
      by rewrite He.
Qed.

(** C4, as the code has it.  With a per-step handler configured, let
    the survivors be the steps on which the post-filter holds, among
    the steps source injection returns for the steps on which the
    pre-filter holds among the augmented ones, and let [info] be the
    provenance index of the augmentation.  The handler is invoked on
    survivors only, in their order, each time with the step and [info]:
    on every survivor, once, when no invocation throws, as is the case
    of every [async] handler; and on the survivors up to and including
    the first one whose invocation throws otherwise, the call of
    [trace] then failing with what was thrown.  If the invocation of
    some survivor fails, by throwing or by rejecting, the call fails
    with the failure of the invocation of one of the survivors,
    whatever the times at which the promises settle. *)
Theorem per_step_dispatch tr receipt traceOpts evs tables evs1 t augmented info
    filtered h :
  resolve_source parseSourceMap tr receipt evs = (Ok tables, evs1) →
  debug_traceTransaction (web3 (network_config tr)) (transactionHash receipt)
    = Ok (Some t) →
  (∀ g, onTrace traceOpts = Some g → g (Some t) = Ok tt) →
  augmentLogs (structLogs t) (default ∅ (constants traceOpts))
    = Ok (augmented, info) →
  inject_source color tables (surviving (preFilter traceOpts) augmented)
    = Ok filtered →
  execLog traceOpts = Some h →
  ((∀ i log,
      surviving (postFilter traceOpts) filtered !! i = Some log →
      ∃ p, h i log info = Ok p) →
   handler_invocations
     (trace color parseSourceMap augmentLogs tr receipt traceOpts evs).2
   = handler_invocations evs
       ++ ((λ log, (log, info)) <$> surviving (postFilter traceOpts) filtered))
  ∧ (∀ k log e,
       surviving (postFilter traceOpts) filtered !! k = Some log →
       h k log info = Err e →
       (∀ j log', (j < k)%nat →
          surviving (postFilter traceOpts) filtered !! j = Some log' →
          ∃ p, h j log' info = Ok p) →
       handler_invocations
         (trace color parseSourceMap augmentLogs tr receipt traceOpts evs).2
       = handler_invocations evs
           ++ ((λ log, (log, info))
                 <$> take (S k) (surviving (postFilter traceOpts) filtered))
       ∧ (trace color parseSourceMap augmentLogs tr receipt traceOpts evs).1
         = Err e)
  ∧ ((∃ i log e,
        surviving (postFilter traceOpts) filtered !! i = Some log
        ∧ failure_of (h i log info) = Some e) →
     ∃ j log e,
       surviving (postFilter traceOpts) filtered !! j = Some log
       ∧ failure_of (h j log info) = Some e
       ∧ (trace color parseSourceMap augmentLogs tr receipt traceOpts evs).1
         = Err e).
Proof.
  intros Hres Hrpc Hobs Haug Hinj Hh.
  destruct (prepare_resolved tr receipt traceOpts evs _ _ _ _ _
              Hres Hrpc Hobs Haug) as [evs' Hprep].
  rewrite filter_opt_surviving, Hinj, filter_opt_surviving in Hprep.
  pose proof (quiet_prepare tr receipt traceOpts evs) as Hquiet.
  rewrite Hprep in Hquiet. simpl in Hquiet.
  set (logs := surviving (postFilter traceOpts) filtered) in *.
  destruct (dispatch_per_step traceOpts h logs info evs' Hh)
    as (Hall & Hthrow & Hfail).
  unfold trace, bind. rewrite Hprep. simpl.
  split; [| split].
  - intros Hret. specialize (Hall Hret).
    destruct (dispatch traceOpts logs info evs') as [[[] | e] evs''];
      simpl in *; by rewrite Hall, Hquiet.
  - intros k log e Hk He Hbefore. rewrite (Hthrow k log e Hk He Hbefore).
    simpl. split; [| done].
    by rewrite handler_invocations_app, handler_invocations_execLog, Hquiet.
  - intros Hsome. destruct (Hfail Hsome) as (j & log & e & Hj & He & Hd).
    exists j, log, e. split; [done |]. split; [done |].
    destruct (dispatch traceOpts logs info evs') as [[[] | e'] evs''];
      simpl in *; congruence.
Qed.

End Dispatch.

(** ** Source resolution *)

Lemma bind_assoc {A B C} (m : M A) (f : A → M B) (g : B → M C) evs :
  bind (bind m f) g evs = bind m (λ x, bind (f x) g) evs.
Proof. unfold bind. by destruct (m evs) as [[a | e] evs']. Qed.

Lemma omap_bind_call {X A B} (proj : Event → option X) (ev : Event)
    (r : result A) (k : A → M B) evs :
  (∀ a, silent proj (k a)) →
  omap proj (bind (call ev r) k evs).2 = omap proj evs ++ omap proj [ev].
Proof.
  intros Hk. unfold bind, call. destruct r as [a | e]; simpl.
  - by rewrite Hk, omap_app.
  - by rewrite omap_app.
Qed.

Lemma bind_call_Ok {A B} (ev : Event) (a : A) (k : A → M B) evs :
  bind (call ev (Ok a)) k evs = k a (evs ++ [ev]).
Proof. done. Qed.

Lemma bind_call_Err {A B} (ev : Event) (e : exn) (k : A → M B) evs :
  bind (call ev (Err e)) k evs = (Err e, evs ++ [ev]).
Proof. done. Qed.

(** The code's choice of address is the specification's. *)
Lemma js_or_target_address (receipt : TransactionReceipt) :
  (∀ ref, contractAddress receipt ≠ JObj ref) →
  js_or (contractAddress receipt) (to receipt) = target_address receipt.
Proof.
  intros Hobj. unfold js_or, target_address, created_address, truthy.
  destruct (contractAddress receipt) as [| | a | ref]; try done.
  - case_decide as Ha; [by subst |].
    destruct (String.eqb_spec a ""); done.
  - by destruct (Hobj ref).
Qed.

Section Resolve.

Variable color : string → string.
Variable parseSourceMap :
  gmap Z string → string → string → list (Z * string) → result PcTable.
Variable augmentLogs :
  list StructLog → gmap string string → result (list StructLog * TraceInfo).

(** Lines 107-126 when the tracer has a collector. *)
Lemma resolve_source_collector tr receipt tc evs :
  traceCollector tr = Some tc →
  resolve_source parseSourceMap tr receipt evs
  = let address := js_or (contractAddress receipt) (to receipt) in
    let isContractCreation := not_strict_null (contractAddress receipt) in
    match eth_getCode (web3 (network_config tr)) address with
    | Err e => (Err e, evs ++ [EvGetCode address])
    | Ok bytecode =>
        let evs1 :=
          (evs ++ [EvGetCode address])
            ++ [EvGetContractData address bytecode isContractCreation] in
        match getContractDataByTraceInfoIfExistsAsync tc address bytecode
                isContractCreation with
        | Err e => (Err e, evs1)
        | Ok None =>
            (Err (Error ("Failed to find contract data for given bytecode at "
                         +:+ js_to_string address)), evs1)
        | Ok (Some contractData) =>
            let sourceMap :=
              if isContractCreation then sourceMap contractData
              else sourceMapRuntime contractData in
            let evs2 :=
              evs1 ++ [EvParseSourceMap sourceMap (stripHexPrefix bytecode)] in
            match parseSourceMap (sourceCodes contractData) sourceMap
                    (stripHexPrefix bytecode) (sources contractData) with
            | Err e => (Err e, evs2)
            | Ok pcToSourceRange =>
                match build_inverted contractData with
                | Err e => (Err e, evs2)
                | Ok inverted => (Ok (Some (pcToSourceRange, inverted)), evs2)
                end
            end
        end
    end.
Proof.
  intros Htc. unfold resolve_source. rewrite Htc.
  unfold bind, call, throw, lift, ret. simpl.
  destruct (eth_getCode _ _) as [bytecode | e]; [| done].
  destruct (getContractDataByTraceInfoIfExistsAsync _ _ _ _)
    as [[contractData |] | e]; [| done | done].
  destruct (parseSourceMap _ _ _ _) as [table | e]; [| done].
  by destruct (build_inverted contractData).
Qed.

(** A failure of source resolution is the failure of the call, and
    nothing else happens. *)
Lemma trace_resolve_error tr receipt traceOpts evs e evs' :
  resolve_source parseSourceMap tr receipt evs = (Err e, evs') →
  trace color parseSourceMap augmentLogs tr receipt traceOpts evs = (Err e, evs').
Proof. intros H. unfold trace, prepare, bind. by rewrite H. Qed.

(** What source resolution logs comes first in the log of the call. *)
Lemma trace_events_after_resolve tr receipt traceOpts evs :
  ∃ rest,
    (trace color parseSourceMap augmentLogs tr receipt traceOpts evs).2
    = (resolve_source parseSourceMap tr receipt evs).2 ++ rest.
Proof.
  unfold trace, prepare. rewrite !bind_assoc. unfold bind at 1.
  destruct (resolve_source _ _ _ _) as [[tables | e] evs']; simpl.
  - match goal with |- ∃ rest, (?m evs').2 = _ =>
      assert (uniform m) as Hu by repeat uniform_step end.
    rewrite Hu. simpl. eauto.
  - exists []. by rewrite app_nil_r.
Qed.

(** C5.  With source resolution configured, exactly one bytecode lookup
    is made, at the receipt's created-contract address when the receipt
    carries one and at its destination address otherwise; the query put
    to the collector is for the same address. *)
Theorem resolver_target tr receipt traceOpts evs tc :
  traceCollector tr = Some tc →
  (∀ ref, contractAddress receipt ≠ JObj ref) →
  code_lookups
    (trace color parseSourceMap augmentLogs tr receipt traceOpts evs).2
  = code_lookups evs ++ [target_address receipt]
  ∧ ∃ queries,
      collector_lookups
        (trace color parseSourceMap augmentLogs tr receipt traceOpts evs).2
      = collector_lookups evs ++ queries
      ∧ Forall (λ q, q.1.1 = target_address receipt) queries
      ∧ (∀ bytecode,
           eth_getCode (web3 (network_config tr)) (target_address receipt)
             = Ok bytecode →
           ∃ isContractCreation,
             queries = [(target_address receipt, bytecode, isContractCreation)]).
Proof.
  intros Htc Hobj. rewrite <- (js_or_target_address receipt Hobj). split.
  - unfold code_lookups, trace, prepare, resolve_source. rewrite Htc.
    rewrite !bind_assoc.
    rewrite (omap_bind_call getCode_event); [done |].
    intros bytecode. repeat silent_step.
  - unfold collector_lookups, trace, prepare, resolve_source. rewrite Htc.
    rewrite !bind_assoc.
    destruct (eth_getCode _ _) as [bytecode | e].
    + rewrite bind_call_Ok, !bind_assoc.
      rewrite (omap_bind_call getContractData_event).
      * rewrite omap_app. simpl. rewrite app_nil_r.
        eexists; split; [reflexivity |]. split; [by repeat constructor |].
        intros ? [= <-]. eauto.
      * intros contractData. repeat silent_step.
    + rewrite bind_call_Err. exists []. cbn [snd]. rewrite omap_app. simpl.
      split; [done |]. split; [constructor | done].
Qed.

(** C8.  With source resolution configured, when the collector finds no
    artifact for the bytecode deployed at the queried address, the call
    fails with the error "Failed to find contract data for given
    bytecode at <address>", the address being the one whose bytecode was
    fetched; nothing is fetched or dispatched after that.  The failure
    stays with the call: any later call on the same tracer behaves as it
    does on a tracer that has made no call. *)
Theorem contract_data_not_found tr receipt traceOpts evs tc bytecode :
  traceCollector tr = Some tc →
  eth_getCode (web3 (network_config tr))
    (js_or (contractAddress receipt) (to receipt)) = Ok bytecode →
  getContractDataByTraceInfoIfExistsAsync tc
    (js_or (contractAddress receipt) (to receipt)) bytecode
    (not_strict_null (contractAddress receipt)) = Ok None →
  trace color parseSourceMap augmentLogs tr receipt traceOpts evs
  = (Err (Error ("Failed to find contract data for given bytecode at "
                 +:+ js_to_string (js_or (contractAddress receipt) (to receipt)))),
     evs ++ [EvGetCode (js_or (contractAddress receipt) (to receipt));
             EvGetContractData (js_or (contractAddress receipt) (to receipt))
               bytecode (not_strict_null (contractAddress receipt))])
  ∧ ∀ receipt' traceOpts',
      trace color parseSourceMap augmentLogs tr receipt' traceOpts'
        (trace color parseSourceMap augmentLogs tr receipt traceOpts evs).2
      = ((trace color parseSourceMap augmentLogs tr receipt' traceOpts' []).1,
         (trace color parseSourceMap augmentLogs tr receipt traceOpts evs).2
           ++ (trace color parseSourceMap augmentLogs tr receipt' traceOpts' []).2).
Proof.
  intros Htc Hcode Hdata. split.
  - apply trace_resolve_error.
    rewrite (resolve_source_collector _ _ _ _ Htc). simpl.
    rewrite Hcode, Hdata. by rewrite <- app_assoc.
  - intros receipt' traceOpts'. apply uniform_trace.
Qed.

(** C10.  For a receipt whose [contractAddress] is undefined, the
    bytecode lookup and the collector query are for the destination
    address [receipt.to], the query is flagged as a contract creation,
    and the source map handed to the decoder is the construction-time
    one, [sourceMap], not [sourceMapRuntime]. *)
Theorem undefined_contract_address tr receipt traceOpts evs tc bytecode contractData :
  contractAddress receipt = JUndefined →
  traceCollector tr = Some tc →
  eth_getCode (web3 (network_config tr)) (to receipt) = Ok bytecode →
  getContractDataByTraceInfoIfExistsAsync tc (to receipt) bytecode true
    = Ok (Some contractData) →
  ∃ rest,
    (trace color parseSourceMap augmentLogs tr receipt traceOpts evs).2
    = evs ++ [EvGetCode (to receipt);
              EvGetContractData (to receipt) bytecode true;
              EvParseSourceMap (sourceMap contractData) (stripHexPrefix bytecode)]
          ++ rest.
Proof.
  intros Hundef Htc Hcode Hdata.
  destruct (trace_events_after_resolve tr receipt traceOpts evs) as [rest ->].
  rewrite (resolve_source_collector _ _ _ _ Htc).
  rewrite Hundef. unfold js_or. simpl. rewrite Hcode, Hdata.
  exists rest.
  destruct (parseSourceMap _ _ _ _) as [table | e];
    [destruct (build_inverted contractData) |];
    simpl; by rewrite <- !app_assoc.
Qed.

End Resolve.

(** ** Source injection *)

(** Every failure of the injection callback is a [TypeError]. *)
Lemma inject_error color table inverted log e :
  inject color table inverted log = Err e → ∃ msg, e = TypeError msg.
Proof.
  unfold inject, getSource.
  destruct (table !! pc log) as [offset |]; [| intros [= <-]; eauto].
  destruct (inverted !! fileName offset); simpl; [done | intros [= <-]; eauto].
Qed.

Lemma array_map_inject_unresolved color table inverted logs log :
  log ∈ logs →
  table !! pc log = None →
  ∃ msg, array_map (inject color table inverted) logs = Err (TypeError msg).
Proof.
  intros Hin Hpc.
  induction Hin as [log logs | log x logs Hin IH]; cbn [array_map].
  - unfold inject at 1. rewrite Hpc. simpl. eauto.
  - destruct (inject color table inverted x) as [y | e] eqn:Ex; cbn [result_bind].
    + destruct (IH Hpc) as [msg ->]. simpl. eauto.
    + apply inject_error in Ex as [msg ->]. eauto.
Qed.

Section Injection.

Variable color : string → string.
Variable parseSourceMap :
  gmap Z string → string → string → list (Z * string) → result PcTable.
Variable augmentLogs :
  list StructLog → gmap string string → result (list StructLog * TraceInfo).

(** C1 on the code.  When a step that reaches source injection has a
    program counter without an entry in the table, the call fails with
    the [TypeError] of a property read on [undefined]: the lookup is
    not guarded. *)
Theorem unresolved_pc_throws tr receipt traceOpts evs table inverted evs1 t
    augmented info log :
  resolve_source parseSourceMap tr receipt evs = (Ok (Some (table, inverted)), evs1) →
  debug_traceTransaction (web3 (network_config tr)) (transactionHash receipt)
    = Ok (Some t) →
  (∀ h, onTrace traceOpts = Some h → h (Some t) = Ok tt) →
  augmentLogs (structLogs t) (default ∅ (constants traceOpts))
    = Ok (augmented, info) →
  log ∈ filter_opt (preFilter traceOpts) augmented →
  table !! pc log = None →
  ∃ msg,
    (trace color parseSourceMap augmentLogs tr receipt traceOpts evs).1
    = Err (TypeError msg).
Proof.
  intros Hres Hrpc Hobs Haug Hin Hpc.
  destruct (prepare_resolved color parseSourceMap augmentLogs _ _ _ _ _ _ _ _ _
              Hres Hrpc Hobs Haug) as [evs' Hprep].
  destruct (array_map_inject_unresolved color table inverted _ _ Hin Hpc)
    as [msg Hmap].
  exists msg. unfold trace, bind. rewrite Hprep. simpl. by rewrite Hmap.
Qed.

End Injection.

(** ** The annotated step *)

Lemma inject_Ok color table inverted log log' :
  inject color table inverted log = Ok log' →
  ∃ offset ex,
    table !! pc log = Some offset
    ∧ getSource color offset (inverted !! fileName offset) = Ok ex
    ∧ log' = spread log ex.
Proof.
  unfold inject.
  destruct (table !! pc log) as [offset |]; [| done].
  destruct (getSource _ _ _) as [ex | e] eqn:Ex; simpl; [| done].
  intros [= <-]. by exists offset, ex.
Qed.

Lemma alloc_fresh (h : gmap nat StructLog) (o : StructLog) :
  h !! (Store.alloc h o).1 = None.
Proof. unfold Store.alloc. simpl. apply not_elem_of_dom, is_fresh. Qed.

Lemma alloc_lookup (h : gmap nat StructLog) (o : StructLog) :
  (Store.alloc h o).2 !! (Store.alloc h o).1 = Some o.
Proof. unfold Store.alloc. simpl. apply lookup_insert_eq. Qed.

Lemma alloc_subseteq (h : gmap nat StructLog) (o : StructLog) :
  h ⊆ (Store.alloc h o).2.
Proof. unfold Store.alloc. simpl. apply insert_subseteq, not_elem_of_dom, is_fresh. Qed.

Section Frame.

Variable color : string → string.
Variable table : PcTable.
Variable inverted : FileIndex.

Lemma annotated_in_weaken h h1 h' r l :
  h ⊆ h1 → is_Some (h !! r) → annotated_in color table inverted h1 h' r l →
  annotated_in color table inverted h h' r l.
Proof.
  intros Hsub [log0 Hr] [Hl (log & log' & offset & ex & Hr1 & Hrest)]. split.
  - destruct (h !! l) as [x |] eqn:Ex; [| done].
    by rewrite (lookup_weaken _ _ _ _ Ex Hsub) in Hl.
  - exists log, log', offset, ex. split; [| done].
    rewrite (lookup_weaken _ _ _ _ Hr Hsub) in Hr1. congruence.
Qed.

Lemma inject_refs_frame refs :
  ∀ h res h',
    Forall (λ r, is_Some (h !! r)) refs →
    Store.inject_refs color table inverted refs h = (res, h') →
    h ⊆ h'
    ∧ ∀ ls, res = Ok ls →
        Forall2 (annotated_in color table inverted h h') refs ls.
Proof.
  induction refs as [|r refs IH]; intros h res h' Hvalid;
    cbn [Store.inject_refs].
  - intros [= <- <-]. split; [done |]. intros ls [= <-]. constructor.
  - apply Forall_cons in Hvalid as [[log Hr] Hvalid]. rewrite Hr.
    destruct (inject color table inverted log) as [o | e] eqn:Eo.
    2:{ intros [= <- <-]. split; [done | done]. }
    pose proof (alloc_fresh h o) as Hfresh.
    pose proof (alloc_lookup h o) as Hnew.
    pose proof (alloc_subseteq h o) as Hsub.
    destruct (Store.alloc h o) as [l h1]. simpl in *.
    assert (Forall (λ r, is_Some (h1 !! r)) refs) as Hvalid1.
    { eapply Forall_impl; [exact Hvalid |].
      intros x [y Hy]. exists y. by eapply lookup_weaken. }
    destruct (Store.inject_refs color table inverted refs h1) as [res1 h2] eqn:E1.
    destruct (IH _ _ _ Hvalid1 E1) as [Hsub1 Hrel].
    assert (h ⊆ h2) as Hsub2 by (by etrans).
    destruct res1 as [ls1 | e1]; simpl; intros [= <- <-]; (split; [done |]);
      [| done].
    intros ls [= <-]. constructor.
    + split; [done |].
      apply inject_Ok in Eo as (offset & ex & Hpc & Hsrc & ->).
      exists log, (spread log ex), offset, ex.
      split; [done |]. split; [by eapply lookup_weaken |]. done.
    + specialize (Hrel ls1 eq_refl).
      clear -Hrel Hvalid Hsub. revert Hvalid.
      induction Hrel as [|x y xs ys Hxy _ IHrel]; intros Hvalid; constructor.
      * apply Forall_cons in Hvalid as [Hx _]. by eapply annotated_in_weaken.
      * apply Forall_cons in Hvalid as [_ Hxs]. by apply IHrel.
Qed.

(** The two views of source injection agree: dereferencing the result
    of [Store.inject_refs] gives what [filteredLogs.map] of the pipeline
    computes on the dereferenced input. *)
Lemma inject_refs_array_map refs :
  ∀ h logs,
    Forall2 (λ r log, h !! r = Some log) refs logs →
    match Store.inject_refs color table inverted refs h with
    | (Ok ls, h') =>
        ∃ logs',
          array_map (inject color table inverted) logs = Ok logs'
          ∧ Forall2 (λ l log', h' !! l = Some log') ls logs'
    | (Err e, _) => array_map (inject color table inverted) logs = Err e
    end.
Proof.
  induction refs as [|r refs IH]; intros h logs Hread;
    cbn [Store.inject_refs].
  - apply Forall2_nil_inv_l in Hread as ->. exists []. by split.
  - apply Forall2_cons_inv_l in Hread as (log & logs' & Hr & Hrest & ->).
    rewrite Hr. cbn [array_map].
    destruct (inject color table inverted log) as [o | e]; [| done].
    pose proof (alloc_lookup h o) as Hnew.
    pose proof (alloc_subseteq h o) as Hsub.
    destruct (Store.alloc h o) as [l h1]. simpl in Hnew, Hsub. cbn [result_bind].
    assert (Forall2 (λ r log, h1 !! r = Some log) refs logs') as Hrest1.
    { eapply Forall2_impl; [exact Hrest |].
      intros x y Hx. exact (lookup_weaken _ _ _ _ Hx Hsub). }
    assert (Forall (λ r, is_Some (h1 !! r)) refs) as Hvalid1.
    { clear -Hrest1. induction Hrest1; constructor; eauto. }
    specialize (IH h1 logs' Hrest1).
    destruct (Store.inject_refs color table inverted refs h1) as [res1 h2] eqn:E1.
    destruct (inject_refs_frame refs h1 res1 h2 Hvalid1 E1) as [Hsub1 _].
    destruct res1 as [ls1 | e1]; simpl.
    + destruct IH as (ys & -> & Hys). simpl. eexists; split; [done |].
      constructor; [exact (lookup_weaken _ _ _ _ Hnew Hsub1) | done].
    + by rewrite IH.
Qed.

(** C9.  Source injection over an array of steps leaves every object of
    the store as it was, the input steps included, and returns
    references to newly allocated objects: the step at each index is a
    new object that agrees with the input step at that index on every
    field other than [source] and [sourceLine] (the nine raw fields,
    [desc], [lastDesc], [sha], [show]) and holds the excerpt and the
    label of the step's source range in those two. *)
Theorem inject_frame refs h res h' :
  Forall (λ r, is_Some (h !! r)) refs →
  Store.inject_refs color table inverted refs h = (res, h') →
  (∀ r log, h !! r = Some log → h' !! r = Some log)
  ∧ ∀ ls, res = Ok ls → Forall2 (annotated_in color table inverted h h') refs ls.
Proof.
  intros Hvalid Hrun.
  destruct (inject_refs_frame refs h res h' Hvalid Hrun) as [Hsub Hrel].
  split; [| done]. intros r log Hr. by eapply lookup_weaken.
Qed.

End Frame.

(** ** Composition of the two filters *)

Lemma filter_both (P1 P2 : StructLog → bool) (xs : list StructLog) :
  List.filter P2 (List.filter P1 xs) = List.filter (both P1 P2) xs.
Proof.
  induction xs as [|x xs IH]; simpl; [done |]. unfold both at 1.
  destruct (P1 x); simpl; [| done].
  destruct (P2 x); by rewrite IH.
Qed.

(** Filtering before a map that the second predicate cannot see through
    is filtering after it. *)
Lemma array_map_filter_both {f : StructLog → result StructLog}
    (P1 P2 : StructLog → bool) (xs ys : list StructLog) :
  (∀ x y, f x = Ok y → P2 y = P2 x) →
  array_map f (List.filter P1 xs) = Ok ys →
  array_map f (List.filter (both P1 P2) xs) = Ok (List.filter P2 ys).
Proof.
  intros Hf. revert ys; induction xs as [|x xs IH]; intros ys; simpl.
  - by intros [= <-].
  - unfold both at 1. destruct (P1 x); simpl; [| by apply IH].
    destruct (f x) as [y |] eqn:Ey; simpl; [| done].
    destruct (array_map f (List.filter P1 xs)) as [ys' |]; simpl; [| done].
    intros [= <-]. simpl. rewrite (Hf _ _ Ey).
    destruct (P2 x); simpl.
    + by rewrite Ey, (IH ys' eq_refl).
    + by apply IH.
Qed.

Section Filters.

Variable color : string → string.
Variable parseSourceMap :
  gmap Z string → string → string → list (Z * string) → result PcTable.
Variable augmentLogs :
  list StructLog → gmap string string → result (list StructLog * TraceInfo).

Lemma prepare_front tr receipt traceOpts evs :
  prepare color parseSourceMap augmentLogs tr receipt traceOpts evs
  = match front parseSourceMap augmentLogs tr receipt traceOpts evs with
    | (Ok (tables, (augmentedLogs, info)), evs') =>
        match inject_source color tables
                (filter_opt (preFilter traceOpts) augmentedLogs) with
        | Ok filteredLogs =>
            (Ok (filter_opt (postFilter traceOpts) filteredLogs, info), evs')
        | Err e => (Err e, evs')
        end
    | (Err e, evs') => (Err e, evs')
    end.
Proof.
  unfold prepare, front, bind.
  destruct (resolve_source _ _ _ _) as [[tables | e] evs1]; [| done].
  destruct (call _ _ _) as [[t | e] evs2]; [| done].
  destruct (match onTrace traceOpts with _ => _ end evs2) as [[[] | e] evs3];
    [| done].
  unfold lift at 1 3. destruct (read_structLogs t) as [logs | e]; [| done].
  destruct (call _ _ _) as [[[augmentedLogs info] | e] evs4]; [| done].
  unfold lift, ret. simpl. by destruct (inject_source _ _ _).
Qed.

Lemma front_with_filters tr receipt o pre post evs :
  front parseSourceMap augmentLogs tr receipt (with_filters o pre post) evs
  = front parseSourceMap augmentLogs tr receipt o evs.
Proof. done. Qed.

Lemma dispatch_with_filters o pre post logs info evs :
  dispatch (with_filters o pre post) logs info evs = dispatch o logs info evs.
Proof. done. Qed.

Lemma front_plain tr receipt o evs tables augmented evs' :
  traceCollector tr = None →
  front parseSourceMap augmentLogs tr receipt o evs = (Ok (tables, augmented), evs') →
  tables = None.
Proof.
  intros Htc. unfold front, resolve_source, bind. rewrite Htc. unfold ret at 1.
  destruct (call _ _ _) as [[t | e] evs2]; [| done].
  destruct (match onTrace o with _ => _ end evs2) as [[[] | e] evs3]; [| done].
  unfold lift at 1. destruct (read_structLogs t) as [logs | e]; [| done].
  destruct (call _ _ _) as [[a | e] evs4]; [| done].
  unfold ret. by intros [= <- _ _].
Qed.

(** C7, as the code has it.  On a tracer without source resolution, so
    that no source injection runs between the filters, pre-filter [P1]
    followed by post-filter [P2] is the single filter "P1 AND P2", put
    in either position: the calls agree in result and in log.  With
    source injection in between, the same holds of the single filter in
    the pre-filter position whenever the two-filter call returns and
    [P2] does not depend on the injected [source] and [sourceLine]. *)
Theorem filter_composition tr receipt o (P1 P2 : StructLog → bool) evs :
  (traceCollector tr = None →
   trace color parseSourceMap augmentLogs tr receipt
     (with_filters o (Some P1) (Some P2)) evs
   = trace color parseSourceMap augmentLogs tr receipt
       (with_filters o (Some (both P1 P2)) None) evs
   ∧ trace color parseSourceMap augmentLogs tr receipt
       (with_filters o (Some P1) (Some P2)) evs
     = trace color parseSourceMap augmentLogs tr receipt
         (with_filters o None (Some (both P1 P2))) evs)
  ∧ ((∀ log ex, P2 (spread log ex) = P2 log) →
     ∀ out,
       (trace color parseSourceMap augmentLogs tr receipt
          (with_filters o (Some P1) (Some P2)) evs).1 = Ok out →
       trace color parseSourceMap augmentLogs tr receipt
         (with_filters o (Some (both P1 P2)) None) evs
       = trace color parseSourceMap augmentLogs tr receipt
           (with_filters o (Some P1) (Some P2)) evs).
Proof.
  split.
  - intros Htc. unfold trace, bind. rewrite !prepare_front, !front_with_filters.
    destruct (front parseSourceMap augmentLogs tr receipt o evs)
      as [[[tables [augmented info]] | e] evs'] eqn:Efront; [| done].
    rewrite (front_plain _ _ _ _ _ _ _ Htc Efront). simpl.
    by rewrite filter_both.
  - intros Hblind out. unfold trace, bind.
    rewrite !prepare_front, !front_with_filters.
    destruct (front parseSourceMap augmentLogs tr receipt o evs)
      as [[[tables [augmented info]] | e] evs']; [| done].
    destruct tables as [[table inverted] |]; simpl.
    + destruct (array_map _ (List.filter P1 augmented)) as [ys |] eqn:Eys;
        [| done].
      rewrite (array_map_filter_both P1 P2 augmented ys); [done | | done].
      intros x y (offset & ex & _ & _ & ->)%inject_Ok. apply Hblind.
    + by rewrite filter_both.
Qed.

End Filters.

(** ** Instances *)

Lemma excerpt_strip_multi_line_witness :
  ∃ ex,
    getSource (blueBright true) (Sample.range 1 0 2 2) (Some Sample.file) = Ok ex
    ∧ strip_markers (excerpt_source ex) = glue_lines (file_lines Sample.file 1 2).
Proof.
  apply (excerpt_strip_multi_line true Sample.file (Sample.range 1 0 2 2)).
  - repeat constructor.
  - simpl; lia.
  - simpl; lia.
  - simpl; lia.
Defined.

Lemma trace_without_filters_witness :
  (∀ out,
     (Sample.run Sample.plain_tracer Sample.call_receipt Sample.no_options).1
     = Ok out →
     length out = 3%nat
     ∧ raw_fields <$> out = raw_fields <$> structLogs Sample.raw_trace
     ∧ out = structLogs Sample.raw_trace)
  ∧ (Sample.run Sample.plain_tracer Sample.call_receipt Sample.no_options).1
    = Ok (structLogs Sample.raw_trace).
Proof.
  destruct (trace_without_filters (blueBright true) Sample.parse Sample.augment
              Sample.plain_tracer Sample.call_receipt Sample.no_options []
              Sample.raw_trace (structLogs Sample.raw_trace) Sample.info
              eq_refl eq_refl eq_refl eq_refl eq_refl eq_refl) as [Hret Hok].
  split; [exact Hret |]. apply Hok.
  split; [| split]; intros; discriminate.
Defined.

(** The failure reported is the one that settles first. *)
Example dispatch_sample_first_failure :
  (Sample.run Sample.plain_tracer Sample.call_receipt Sample.handler_options).1
  = Err (Rejected (JStr "early")).
Proof. reflexivity. Qed.

Lemma per_step_dispatch_witness :
  handler_invocations
    (Sample.run Sample.plain_tracer Sample.call_receipt Sample.handler_options).2
  = [(Sample.step 0, Sample.info); (Sample.step 1, Sample.info);
     (Sample.step 2, Sample.info)]
  ∧ (handler_invocations
       (Sample.run Sample.plain_tracer Sample.call_receipt
          Cases.throwing_options).2
     = [(Sample.step 0, Sample.info); (Sample.step 1, Sample.info)]
     ∧ (Sample.run Sample.plain_tracer Sample.call_receipt
          Cases.throwing_options).1 = Err (Rejected (JStr "thrown")))
  ∧ ∃ j log e,
      structLogs Sample.raw_trace !! j = Some log
      ∧ failure_of (Ok (Sample.failing_handler j log Sample.info)) = Some e
      ∧ (Sample.run Sample.plain_tracer Sample.call_receipt
           Sample.handler_options).1 = Err e.
Proof.
  assert (∀ g : option Trace → result unit,
            None = Some g → g (Some Sample.raw_trace) = Ok tt) as Hobs
    by (intros g [=]).
  destruct (per_step_dispatch (blueBright true) Sample.parse Sample.augment
              Sample.plain_tracer Sample.call_receipt Sample.handler_options []
              None [] Sample.raw_trace (structLogs Sample.raw_trace) Sample.info
              (structLogs Sample.raw_trace)
              (λ i log info, Ok (Sample.failing_handler i log info))
              eq_refl eq_refl Hobs eq_refl eq_refl eq_refl)
    as (Hall & _ & Hfail).
  destruct (per_step_dispatch (blueBright true) Sample.parse Sample.augment
              Sample.plain_tracer Sample.call_receipt Cases.throwing_options []
              None [] Sample.raw_trace (structLogs Sample.raw_trace) Sample.info
              (structLogs Sample.raw_trace) Cases.throwing_handler
              eq_refl eq_refl Hobs eq_refl eq_refl eq_refl)
    as (_ & Hthrow & _).
  split; [| split].
  - apply Hall. intros i log _. eexists. reflexivity.
  - apply (Hthrow 1%nat (Sample.step 1) (Rejected (JStr "thrown")) eq_refl
             eq_refl).
    intros j log' Hj _. destruct j as [| j]; [| lia]. eexists. reflexivity.
  - apply Hfail. exists 1%nat, (Sample.step 1), (Rejected (JStr "late")).
    split; reflexivity.
Defined.

(** C4, as the specification words it, fails of a handler that is not
    [async]: when its invocation on the second of three surviving
    steps throws, [postFilteredLogs.map] stops there and the third step
    is never handed over. *)
Lemma per_step_dispatch_counterexample :
  ¬ (∀ tr receipt traceOpts evs tables evs1 t augmented info filtered h,
       resolve_source Sample.parse tr receipt evs = (Ok tables, evs1) →
       debug_traceTransaction (web3 (network_config tr))
         (transactionHash receipt) = Ok (Some t) →
       (∀ g, onTrace traceOpts = Some g → g (Some t) = Ok tt) →
       Sample.augment (structLogs t) (default ∅ (constants traceOpts))
         = Ok (augmented, info) →
       inject_source (blueBright true) tables
         (surviving (preFilter traceOpts) augmented) = Ok filtered →
       execLog traceOpts = Some h →
       handler_invocations
         (trace (blueBright true) Sample.parse Sample.augment tr receipt
            traceOpts evs).2
       = handler_invocations evs
           ++ ((λ log, (log, info))
                 <$> surviving (postFilter traceOpts) filtered)).
Proof.
  intros H.
  specialize (H Sample.plain_tracer Sample.call_receipt Cases.throwing_options
                [] None [] Sample.raw_trace (structLogs Sample.raw_trace)
                Sample.info (structLogs Sample.raw_trace)
                Cases.throwing_handler eq_refl eq_refl).
  assert (∀ g : option Trace → result unit,
            None = Some g → g (Some Sample.raw_trace) = Ok tt) as Hobs
    by (intros g [=]).
  specialize (H Hobs eq_refl eq_refl eq_refl).
  apply (f_equal length) in H. vm_compute in H. discriminate H.
Qed.

Lemma resolver_target_witness :
  code_lookups
    (Sample.run (Sample.tracer true) Sample.creation_receipt Sample.no_options).2
  = [JStr "0xC0"]
  ∧ code_lookups
      (Sample.run (Sample.tracer true) Sample.call_receipt Sample.no_options).2
    = [JStr "0xD0"].
Proof.
  split.
  - apply (resolver_target (blueBright true) Sample.parse Sample.augment
             (Sample.tracer true) Sample.creation_receipt Sample.no_options []
             (Sample.collector true) eq_refl).
    intros ref [=].
  - apply (resolver_target (blueBright true) Sample.parse Sample.augment
             (Sample.tracer true) Sample.call_receipt Sample.no_options []
             (Sample.collector true) eq_refl).
    intros ref [=].
Defined.

Lemma contract_data_not_found_witness :
  Sample.run (Sample.tracer false) Sample.call_receipt Sample.no_options
  = (Err (Error "Failed to find contract data for given bytecode at 0xD0"),
     [EvGetCode (JStr "0xD0"); EvGetContractData (JStr "0xD0") "0x6001" false])
  ∧ ∀ receipt' traceOpts',
      trace (blueBright true) Sample.parse Sample.augment (Sample.tracer false)
        receipt' traceOpts'
        (Sample.run (Sample.tracer false) Sample.call_receipt Sample.no_options).2
      = ((trace (blueBright true) Sample.parse Sample.augment
            (Sample.tracer false) receipt' traceOpts' []).1,
         (Sample.run (Sample.tracer false) Sample.call_receipt
            Sample.no_options).2
           ++ (trace (blueBright true) Sample.parse Sample.augment
                 (Sample.tracer false) receipt' traceOpts' []).2).
Proof.
  exact (contract_data_not_found (blueBright true) Sample.parse Sample.augment
           (Sample.tracer false) Sample.call_receipt Sample.no_options []
           (Sample.collector false) "0x6001" eq_refl eq_refl eq_refl).
Defined.

Lemma undefined_contract_address_witness :
  ∃ rest,
    (Sample.run (Sample.tracer true) Sample.undefined_receipt Sample.no_options).2
    = [EvGetCode (JStr "0xD0"); EvGetContractData (JStr "0xD0") "0x6001" true;
       EvParseSourceMap "creation-map" "6001"] ++ rest.
Proof.
  apply (undefined_contract_address (blueBright true) Sample.parse Sample.augment
           (Sample.tracer true) Sample.undefined_receipt Sample.no_options []
           (Sample.collector true) "0x6001" Sample.contract
           eq_refl eq_refl eq_refl eq_refl).
Defined.

Lemma inject_frame_witness :
  (∀ r log,
     Sample.store !! r = Some log →
     (Store.inject_refs (blueBright true) Sample.table {[ "A" := Sample.file ]}
        [0%nat; 1%nat] Sample.store).2 !! r = Some log)
  ∧ ∀ ls,
      (Store.inject_refs (blueBright true) Sample.table {[ "A" := Sample.file ]}
         [0%nat; 1%nat] Sample.store).1 = Ok ls →
      Forall2
        (annotated_in (blueBright true) Sample.table {[ "A" := Sample.file ]}
           Sample.store
           (Store.inject_refs (blueBright true) Sample.table
              {[ "A" := Sample.file ]} [0%nat; 1%nat] Sample.store).2)
        [0%nat; 1%nat] ls.
Proof.
  apply (inject_frame (blueBright true) Sample.table {[ "A" := Sample.file ]}
           [0%nat; 1%nat] Sample.store).
  - repeat constructor; eexists; reflexivity.
  - apply surjective_pairing.
Defined.

Lemma filter_composition_witness :
  Sample.run Sample.plain_tracer Sample.call_receipt
    (with_filters Sample.no_options (Some Sample.early) (Some Sample.cheap))
  = Sample.run Sample.plain_tracer Sample.call_receipt
      (with_filters Sample.no_options
         (Some (both Sample.early Sample.cheap)) None)
  ∧ Sample.run Sample.resolved_tracer Sample.call_receipt
      (with_filters Sample.no_options
         (Some (both Sample.early Sample.cheap)) None)
    = Sample.run Sample.resolved_tracer Sample.call_receipt
        (with_filters Sample.no_options (Some Sample.early) (Some Sample.cheap)).
Proof.
  split.
  - apply (filter_composition (blueBright true) Sample.parse Sample.augment
             Sample.plain_tracer Sample.call_receipt Sample.no_options
             Sample.early Sample.cheap []).
    reflexivity.
  - eapply (filter_composition (blueBright true) Sample.parse Sample.augment
              Sample.resolved_tracer Sample.call_receipt Sample.no_options
              Sample.early Sample.cheap []).
    + intros log ex. reflexivity.
    + reflexivity.
Defined.

(** C7, as the specification words it, fails with source injection in
    between: with [P1] keeping the steps without a label and [P2] those
    with one, the two filters keep both steps of the trace, while the
    single filter "P1 AND P2" keeps none, before or after injection. *)
Lemma filter_composition_counterexample :
  ¬ (∀ tr receipt o (P1 P2 : StructLog → bool) evs,
       (trace (blueBright true) Sample.parse Sample.augment tr receipt
          (with_filters o (Some P1) (Some P2)) evs).1
       = (trace (blueBright true) Sample.parse Sample.augment tr receipt
            (with_filters o (Some (both P1 P2)) None) evs).1
       ∨ (trace (blueBright true) Sample.parse Sample.augment tr receipt
            (with_filters o (Some P1) (Some P2)) evs).1
         = (trace (blueBright true) Sample.parse Sample.augment tr receipt
              (with_filters o None (Some (both P1 P2))) evs).1).
Proof.
  intros H.
  specialize (H Sample.resolved_tracer Sample.call_receipt Sample.no_options
                Sample.unannotated Sample.annotated []).
  vm_compute in H. destruct H as [H | H]; discriminate H.
Qed.

Lemma unresolved_pc_throws_witness :
  ∃ msg,
    (Sample.run (Sample.tracer true) Sample.call_receipt Sample.no_options).1
    = Err (TypeError msg).
Proof.
  apply (unresolved_pc_throws (blueBright true) Sample.parse Sample.augment
           (Sample.tracer true) Sample.call_receipt Sample.no_options []
           Sample.table {[ "A" := Sample.file ]}
           [EvGetCode (JStr "0xD0");
            EvGetContractData (JStr "0xD0") "0x6001" false;
            EvParseSourceMap "runtime-map" "6001"]
           Sample.raw_trace (structLogs Sample.raw_trace) Sample.info
           (Sample.step 1)).
  - reflexivity.
  - reflexivity.
  - intros h [=].
  - reflexivity.
  - simpl. set_solver.
  - reflexivity.
Defined.

(** The failing call, evaluated. *)
Example sample_call_throws :
  (Sample.run (Sample.tracer true) Sample.call_receipt Sample.no_options).1
  = Err (TypeError "Cannot read property 'fileName' of undefined").
Proof. reflexivity. Qed.

(** * Further properties *)

(** ** More on the excerpt *)

Lemma string_drop_drop (n m : nat) (s : string) :
  string_drop n (string_drop m s) = string_drop (m + n) s.
Proof.
  revert s; induction m as [|m IH]; intros s; simpl; [done |].
  destruct s as [|c s]; simpl; [by destruct n | apply IH].
Qed.

Lemma string_take_length (n : nat) (s : string) :
  String.length (string_take n s) = (n `min` String.length s)%nat.
Proof.
  revert s; induction n as [|n IH]; intros [|c s]; simpl; try done.
  by rewrite IH.
Qed.

Lemma append_length (a b : string) :
  String.length (a +:+ b) = (String.length a + String.length b)%nat.
Proof. induction a as [|c a IH]; simpl; [done | by rewrite IH]. Qed.

Lemma string_drop_ge (n : nat) (s : string) :
  (String.length s ≤ n)%nat → string_drop n s = "".
Proof.
  revert s; induction n as [|n IH]; intros [|c s]; simpl; try done; try lia.
  intros Hn. apply IH. lia.
Qed.

(** Slices at columns that are not negative, as [take] and [drop]. *)
Lemma string_slice_from (s : string) (a : Z) :
  0 ≤ a → string_slice s a None = string_drop (Z.to_nat a) s.
Proof.
  intros Ha. unfold string_slice, slice_bounds, slice_index.
  destruct (Z.ltb_spec a 0); [lia |].
  destruct (Z.le_gt_cases a (Z.of_nat (String.length s))).
  - replace (Z.to_nat (Z.min a (Z.of_nat (String.length s)))) with (Z.to_nat a)
      by lia.
    apply string_take_all. rewrite string_drop_length. lia.
  - rewrite (string_drop_ge (Z.to_nat a)) by lia.
    rewrite string_take_all; [apply string_drop_ge; lia |].
    rewrite string_drop_length. lia.
Qed.

Lemma string_slice_between (s : string) (a b : Z) :
  0 ≤ a → 0 ≤ b →
  string_slice s a (Some b)
  = string_take (Z.to_nat b - Z.to_nat a) (string_drop (Z.to_nat a) s).
Proof.
  intros Ha Hb. unfold string_slice, slice_bounds, slice_index.
  destruct (Z.ltb_spec a 0); [lia |]. destruct (Z.ltb_spec b 0); [lia |].
  destruct (Z.le_gt_cases a (Z.of_nat (String.length s))).
  - replace (Z.to_nat (Z.min a (Z.of_nat (String.length s)))) with (Z.to_nat a)
      by lia.
    destruct (Z.le_gt_cases b (Z.of_nat (String.length s))).
    + f_equal. lia.
    + rewrite !string_take_all; [done | |]; rewrite string_drop_length; lia.
  - rewrite (string_drop_ge (Z.to_nat a)) by lia.
    rewrite (string_drop_ge _ s) by lia.
    by destruct (Z.to_nat _), (_ - _)%nat.
Qed.

(** The three slices of the single-line case, for columns in order. *)
Lemma string_slice_three (s : string) (sc ec : Z) :
  0 ≤ sc → sc ≤ ec →
  string_slice s 0 (Some sc) +:+ string_slice s sc (Some ec)
    +:+ string_slice s ec None = s.
Proof.
  intros Hsc Hec.
  rewrite !string_slice_between, string_slice_from by lia.
  simpl string_drop. rewrite Nat.sub_0_r.
  replace (Z.to_nat ec) with (Z.to_nat sc + (Z.to_nat ec - Z.to_nat sc))%nat
    at 2 by lia.
  rewrite <- string_drop_drop, string_take_drop. apply string_take_drop.
Qed.

Lemma file_lines_single (file : list string) (L : Z) (l : string) :
  1 ≤ L → file !! Z.to_nat (L - 1) = Some l → file_lines file L L = [l].
Proof.
  intros HL Hl. unfold file_lines. replace (L - L + 1) with 1 by lia.
  rewrite (drop_S _ _ _ Hl). done.
Qed.

Lemma strip_plain (a : string) : esc_free a = true → strip_markers a = a.
Proof.
  intros Ha. rewrite <- (append_nil_r a) at 1.
  by rewrite strip_plain_app, append_nil_r.
Qed.

(** The excerpt of a range that covers one line of the file. *)
Lemma getSource_one_line color file fileName L1 c1 L2 c2 l :
  array_slice file (L1 - 1) (Some L2) = [l] →
  ∃ ex,
    getSource color (mkRange fileName L1 c1 L2 c2) (Some file) = Ok ex
    ∧ excerpt_source ex
      = string_slice l 0 (Some c1) +:+ color (string_slice l c1 (Some c2))
          +:+ string_slice l c2 None.
Proof.
  intros Hl. eexists; split; [reflexivity |]. simpl. by rewrite Hl.
Qed.

(** X1.  Single-line round trip.  For a range within one line of the
    file, with columns in order, the excerpt without its markers is
    that line; when the two columns are equal the excerpt is the line
    itself, with no marker in it. *)
Theorem excerpt_strip_single_line (enabled : bool) (file : list string)
    (fileName : string) (L sc ec : Z) (l : string) :
  Forall (λ x, esc_free x = true) file →
  1 ≤ L →
  file !! Z.to_nat (L - 1) = Some l →
  0 ≤ sc → sc ≤ ec →
  ∃ ex,
    getSource (blueBright enabled) (mkRange fileName L sc L ec) (Some file) = Ok ex
    ∧ strip_markers (excerpt_source ex) = l
    ∧ (sc = ec → excerpt_source ex = l).
Proof.
  intros Hfile HL Hl Hsc Hec.
  assert (esc_free l = true) as Hplain.
  { by eapply (Forall_lookup_1 _ _ _ _ Hfile). }
  destruct (getSource_one_line (blueBright enabled) file fileName L sc L ec l)
    as (ex & Hex & Hsrc).
  { rewrite array_slice_file_lines by lia. by apply file_lines_single. }
  exists ex. split; [done |]. rewrite Hsrc. split.
  - rewrite strip_plain_app, strip_blueBright_app, strip_plain
      by by apply esc_free_slice.
    by apply string_slice_three.
  - intros <-. rewrite (string_slice_between l sc sc) by lia.
    rewrite Nat.sub_diag. simpl string_take.
    unfold blueBright. rewrite andb_false_r. simpl.
    apply string_slice_split.
Qed.

(** X2.  Columns out of order.  For a range within one line whose end
    column lies before its start column, nothing is highlighted and the
    text between the two columns appears twice: the excerpt is longer
    than the line by the distance between the columns. *)
Theorem excerpt_reversed_columns (enabled : bool) (file : list string)
    (fileName : string) (L sc ec : Z) (l : string) :
  Forall (λ x, esc_free x = true) file →
  1 ≤ L →
  file !! Z.to_nat (L - 1) = Some l →
  0 ≤ ec → ec < sc → sc ≤ Z.of_nat (String.length l) →
  ∃ ex,
    getSource (blueBright enabled) (mkRange fileName L sc L ec) (Some file) = Ok ex
    ∧ excerpt_source ex
      = string_take (Z.to_nat sc) l +:+ string_drop (Z.to_nat ec) l
    ∧ Z.of_nat (String.length (excerpt_source ex))
      = Z.of_nat (String.length l) + (sc - ec).
Proof.
  intros Hfile HL Hl Hec Hlt Hsc.
  destruct (getSource_one_line (blueBright enabled) file fileName L sc L ec l)
    as (ex & Hex & Hsrc).
  { rewrite array_slice_file_lines by lia. by apply file_lines_single. }
  exists ex. split; [done |]. rewrite Hsrc.
  rewrite !string_slice_between, string_slice_from by lia.
  replace (Z.to_nat ec - Z.to_nat sc)%nat with 0%nat by lia.
  simpl string_take. simpl string_drop. rewrite Nat.sub_0_r.
  unfold blueBright. rewrite andb_false_r. simpl. split; [done |].
  rewrite append_length, string_take_length, string_drop_length. lia.
Qed.

(** X3.  A range outside the file.  When the start line lies beyond the
    last line of the file, or the end line before the start line, the
    excerpt is empty; [getSource] fails in neither case. *)
Theorem excerpt_outside_file (color : string → string) (file : list string)
    (fileName : string) (L1 c1 L2 c2 : Z) :
  1 ≤ L1 → 0 ≤ L2 →
  Z.of_nat (length file) < L1 ∨ L2 < L1 →
  ∃ ex,
    getSource color (mkRange fileName L1 c1 L2 c2) (Some file) = Ok ex
    ∧ excerpt_source ex = "".
Proof.
  intros H1 H2 Hout. eexists; split; [reflexivity |]. simpl.
  assert (array_slice file (L1 - 1) (Some L2) = []) as ->; [| done].
  unfold array_slice, slice_bounds, slice_index.
  destruct (Z.ltb_spec (L1 - 1) 0); [lia |].
  destruct (Z.ltb_spec L2 0); [lia |].
  destruct Hout as [Hout | Hout].
  - rewrite drop_ge by lia. apply take_nil.
  - replace (Z.to_nat (Z.max _ 0)) with 0%nat by lia. done.
Qed.

(** X4.  The end line is clamped to the file.  Two ranges that differ
    only in end lines at or beyond the last line of the file have the
    same excerpt; so a range that starts on the last line and ends
    beyond it is highlighted as the single-line range with the same
    columns. *)
Theorem excerpt_end_line_clamped (color : string → string) (file : list string)
    (fileName : string) (L1 c1 L2 L2' c2 : Z) :
  Z.of_nat (length file) ≤ L2 →
  Z.of_nat (length file) ≤ L2' →
  ∃ ex ex',
    getSource color (mkRange fileName L1 c1 L2 c2) (Some file) = Ok ex
    ∧ getSource color (mkRange fileName L1 c1 L2' c2) (Some file) = Ok ex'
    ∧ excerpt_source ex = excerpt_source ex'.
Proof.
  intros H2 H2'. eexists _, _; split; [reflexivity |]; split; [reflexivity |].
  simpl.
  assert (array_slice file (L1 - 1) (Some L2)
          = array_slice file (L1 - 1) (Some L2')) as ->; [| done].
  unfold array_slice, slice_bounds, slice_index.
  destruct (Z.ltb_spec L2 0); [lia |]. destruct (Z.ltb_spec L2' 0); [lia |].
  by rewrite (Z.min_r L2), (Z.min_r L2') by lia.
Qed.

(** ** The file index *)

Lemma split_lines_nonempty (s : string) : split_lines s ≠ [].
Proof.
  destruct s as [|c s]; simpl; [done |].
  destruct (Ascii.eqb c "010"); [done |]. by destruct (split_lines s).
Qed.

Lemma join_lines_cons (x : string) (ls : list string) :
  ls ≠ [] → join_lines (x :: ls) = x +:+ String LF (join_lines ls).
Proof. by destruct ls. Qed.

(** [split("\n")] loses nothing: the pieces hold no line feed, and
    joined by line feeds they give the text back. *)
Theorem split_lines_join (s : string) :
  join_lines (split_lines s) = s
  ∧ Forall (λ l, lf_free l = true) (split_lines s).
Proof.
  induction s as [|c s [IHjoin IHfree]]; simpl; [by repeat constructor |].
  destruct (Ascii.eqb c "010") eqn:Ec.
  - apply Ascii.eqb_eq in Ec as ->. split.
    + rewrite join_lines_cons by apply split_lines_nonempty. simpl.
      by rewrite IHjoin.
    + by constructor.
  - pose proof (split_lines_nonempty s) as Hne.
    destruct (split_lines s) as [|l ls]; [done |]. split.
    + destruct ls as [|l' ls].
      * unfold join_lines in *. simpl in *. by rewrite IHjoin.
      * rewrite join_lines_cons in * by done. simpl. by rewrite IHjoin.
    + apply Forall_cons in IHfree as [Hl Hls]. constructor; [| done].
      simpl. unfold LF. by rewrite Ec, Hl.
Qed.

Lemma build_inverted_fold (contractData : ContractData) :
  build_inverted contractData
  = fold_left (inverted_step contractData) (sources contractData) (Ok ∅).
Proof. done. Qed.

(** Once the reduction of lines 120-125 has thrown, it stays thrown. *)
Lemma build_inverted_fold_Err (contractData : ContractData) l e :
  fold_left (inverted_step contractData) l (Err e) = Err e.
Proof. induction l as [|x l IH]; simpl; [done | apply IH]. Qed.

(** Entries under other names leave a name of the index alone. *)
Lemma build_inverted_fold_other (contractData : ContractData) l acc inv name :
  fold_left (inverted_step contractData) l (Ok acc) = Ok inv →
  name ∉ l.*2 →
  inv !! name = acc !! name.
Proof.
  revert acc; induction l as [|[id n] l IH]; intros acc; cbn [fold_left].
  - by intros [= <-].
  - unfold inverted_step at 2. cbn.
    intros Hfold Hname. apply not_elem_of_cons in Hname as [Hne Hname].
    destruct (sourceCodes contractData !! id) as [code |].
    + rewrite (IH _ Hfold Hname). by apply lookup_insert_ne.
    + by rewrite build_inverted_fold_Err in Hfold.
Qed.

(** X6.  The index gives, under each file name, the lines of the source
    text of the last source id listed under that name; joined by line
    feeds, the lines are that text. *)
Theorem build_inverted_lookup (contractData : ContractData) inv before id name after :
  build_inverted contractData = Ok inv →
  sources contractData = before ++ (id, name) :: after →
  name ∉ after.*2 →
  ∃ code,
    sourceCodes contractData !! id = Some code
    ∧ inv !! name = Some (split_lines code)
    ∧ join_lines (split_lines code) = code.
Proof.
  rewrite build_inverted_fold. intros Hbuild Hsrc Hlast.
  rewrite Hsrc, fold_left_app in Hbuild. cbn [fold_left] in Hbuild.
  unfold inverted_step at 2 in Hbuild.
  destruct (fold_left _ before (Ok ∅)) as [acc | e]; cbn in Hbuild.
  2:{ by rewrite build_inverted_fold_Err in Hbuild. }
  destruct (sourceCodes contractData !! id) as [code |].
  2:{ by rewrite build_inverted_fold_Err in Hbuild. }
  exists code. split; [done |]. split; [| apply split_lines_join].
  rewrite (build_inverted_fold_other _ _ _ _ _ Hbuild Hlast).
  apply lookup_insert_eq.
Qed.

(** X7.  Building the index fails exactly when some listed source id
    has no source text, and then with the [TypeError] of [.split] on
    [undefined]. *)
Theorem build_inverted_fails (contractData : ContractData) :
  (∃ e, build_inverted contractData = Err e)
  ↔ ∃ id name,
      (id, name) ∈ sources contractData
      ∧ sourceCodes contractData !! id = None.
Proof.
  rewrite build_inverted_fold. generalize (∅ : FileIndex).
  induction (sources contractData) as [|[id name] l IH]; intros acc;
    cbn [fold_left].
  - split; [by intros [e [=]] | by intros (? & ? & []%not_elem_of_nil & _)].
  - unfold inverted_step at 2. cbn.
    destruct (sourceCodes contractData !! id) as [code |] eqn:Hcode.
    + rewrite IH. split.
      * intros (id' & name' & Hin & Hnone). exists id', name'.
        split; [by right | done].
      * intros (id' & name' & [[= -> ->] | Hin]%elem_of_cons & Hnone);
          [congruence | eauto].
    + rewrite build_inverted_fold_Err. split; [| eauto].
      intros _. exists id, name. split; [by left | done].
Qed.

Lemma build_inverted_error (contractData : ContractData) e :
  build_inverted contractData = Err e →
  e = TypeError "Cannot read property 'split' of undefined".
Proof.
  rewrite build_inverted_fold. generalize (∅ : FileIndex).
  induction (sources contractData) as [|[id name] l IH]; intros acc;
    cbn [fold_left].
  - done.
  - unfold inverted_step at 2. cbn.
    destruct (sourceCodes contractData !! id) as [code |]; [apply IH |].
    rewrite build_inverted_fold_Err. by intros [= <-].
Qed.

(** ** The pipeline, stage by stage *)

Lemma List_filter_sublist {A} (P : A → bool) (l : list A) :
  List.filter P l `sublist_of` l.
Proof.
  induction l as [|x l IH]; simpl; [done |].
  destruct (P x); [by apply sublist_skip | by apply sublist_cons].
Qed.

Lemma List_filter_Forall {A} (P : A → bool) (l : list A) :
  Forall (λ x, P x = true) (List.filter P l).
Proof.
  induction l as [|x l IH]; simpl; [done |].
  destruct (P x) eqn:Hx; [by constructor | done].
Qed.

Lemma sublist_fmap {A B} (f : A → B) (l k : list A) :
  l `sublist_of` k → f <$> l `sublist_of` f <$> k.
Proof. apply fmap_sublist. Qed.

Lemma sublist_Forall {A} (P : A → Prop) (l k : list A) :
  l `sublist_of` k → Forall P k → Forall P l.
Proof.
  intros Hsub Hk. apply Forall_forall. intros x Hx.
  eapply (proj1 (Forall_forall P k)); [done |]. by eapply elem_of_sublist.
Qed.

Lemma filter_opt_sublist p (l : list StructLog) : filter_opt p l `sublist_of` l.
Proof. destruct p; simpl; [apply List_filter_sublist | done]. Qed.

(** A successful map of the injection callback annotates every step and
    touches nothing else. *)
Lemma array_map_inject_Ok color table inverted logs out :
  array_map (inject color table inverted) logs = Ok out →
  other_fields <$> out = other_fields <$> logs
  ∧ Forall annotated_step out
  ∧ Forall (resolvable table inverted) logs.
Proof.
  revert out; induction logs as [|log logs IH]; intros out; cbn [array_map].
  - intros [= <-]. by repeat constructor.
  - destruct (inject color table inverted log) as [log' |] eqn:Elog; [| done].
    cbn [result_bind].
    destruct (array_map _ logs) as [out' |]; [| done]. cbn [result_bind].
    intros [= <-]. destruct (IH out' eq_refl) as (Hother & Hann & Hres).
    apply inject_Ok in Elog as (offset & ex & Hpc & Hsrc & ->).
    rewrite !fmap_cons. split; [by f_equal |]. split.
    + constructor; [| done]. split; simpl; eauto.
    + constructor; [| done]. exists offset. split; [done |].
      unfold getSource in Hsrc. by destruct (inverted !! fileName offset).
Qed.

Section Stages.

Variable color : string → string.
Variable parseSourceMap :
  gmap Z string → string → string → list (Z * string) → result PcTable.
Variable augmentLogs :
  list StructLog → gmap string string → result (list StructLog * TraceInfo).

(** What a successful [prepare] went through. *)
Lemma prepare_inv tr receipt traceOpts evs logs info evs' :
  prepare color parseSourceMap augmentLogs tr receipt traceOpts evs
    = (Ok (logs, info), evs') →
  ∃ tables t augmented filtered,
    (resolve_source parseSourceMap tr receipt evs).1 = Ok tables
    ∧ debug_traceTransaction (web3 (network_config tr)) (transactionHash receipt)
      = Ok (Some t)
    ∧ (∀ h, onTrace traceOpts = Some h → h (Some t) = Ok tt)
    ∧ augmentLogs (structLogs t) (default ∅ (constants traceOpts))
      = Ok (augmented, info)
    ∧ inject_source color tables (filter_opt (preFilter traceOpts) augmented)
      = Ok filtered
    ∧ logs = filter_opt (postFilter traceOpts) filtered.
Proof.
  unfold prepare, bind.
  destruct (resolve_source _ _ _ _) as [[tables |] evs1]; [| done].
  unfold call at 1.
  destruct (debug_traceTransaction _ _) as [fetched |] eqn:Erpc; [| done].
  assert (∀ evs2 (k : unit → M (list StructLog * TraceInfo)),
            (match (match onTrace traceOpts with
                    | Some onTrace => call (EvOnTrace fetched) (onTrace fetched)
                    | None => ret tt
                    end) evs2 with
             | (Ok a, evs3) => k a evs3
             | (Err e, evs3) => (Err e, evs3)
             end) = (Ok (logs, info), evs') →
            (∀ h, onTrace traceOpts = Some h → h fetched = Ok tt)
            ∧ ∃ evs3, k tt evs3 = (Ok (logs, info), evs')) as Hobs.
  { intros evs2 k. destruct (onTrace traceOpts) as [h |].
    - unfold call. destruct (h fetched) as [[] |] eqn:Eh; [| done].
      intros Hk. split; [by intros ? [= <-] | eauto].
    - unfold ret. intros Hk. split; [done | eauto]. }
  intros [Hok [evs3 Hk]]%Hobs. revert Hk. unfold lift at 1.
  destruct fetched as [t |]; cbn [read_structLogs]; [| done]. unfold call.
  destruct (augmentLogs _ _) as [[augmented info0] |] eqn:Eaug; [| done].
  unfold lift, ret. simpl.
  destruct (inject_source _ _ _) as [filtered |] eqn:Einj; [| done].
  intros [= <- <- _]. by exists tables, t, augmented, filtered.
Qed.

(** With a collector, successful resolution yields the two tables. *)
Lemma resolve_source_Some tr receipt tc evs tables evs' :
  traceCollector tr = Some tc →
  resolve_source parseSourceMap tr receipt evs = (Ok tables, evs') →
  is_Some tables.
Proof.
  intros Htc. rewrite (resolve_source_collector _ _ _ _ _ Htc). simpl.
  destruct (eth_getCode _ _); [| done].
  destruct (getContractDataByTraceInfoIfExistsAsync _ _ _ _) as [[cd |] |];
    [| done | done].
  destruct (parseSourceMap _ _ _ _); [| done].
  destruct (build_inverted cd); [| done]. intros [= <- _]. eauto.
Qed.

(** X8.  Steps are only removed or annotated, never reordered or
    invented: whenever [trace] returns, the returned steps, read on
    every field but [source] and [sourceLine], form a subsequence of the
    augmented steps of the fetched trace. *)
Theorem trace_selects_in_order tr receipt traceOpts evs out :
  (trace color parseSourceMap augmentLogs tr receipt traceOpts evs).1 = Ok out →
  ∃ t augmented info,
    debug_traceTransaction (web3 (network_config tr)) (transactionHash receipt)
      = Ok (Some t)
    ∧ augmentLogs (structLogs t) (default ∅ (constants traceOpts))
      = Ok (augmented, info)
    ∧ other_fields <$> out `sublist_of` other_fields <$> augmented.
Proof.
  intros (info & evs' & Hprep)%trace_returns_prepared.
  apply prepare_inv in Hprep
    as (tables & t & augmented & filtered & _ & Hrpc & _ & Haug & Hinj & ->).
  exists t, augmented, info. split; [done |]. split; [done |].
  etrans; [apply sublist_fmap, filter_opt_sublist |].
  destruct tables as [[table inverted] |]; simpl in Hinj.
  - apply array_map_inject_Ok in Hinj as [-> _].
    apply sublist_fmap, filter_opt_sublist.
  - injection Hinj as <-. apply sublist_fmap, filter_opt_sublist.
Qed.

(** X9.  Whenever [trace] returns, every returned step satisfies the
    post-filter, if one is configured. *)
Theorem trace_satisfies_postFilter tr receipt traceOpts evs out P2 :
  (trace color parseSourceMap augmentLogs tr receipt traceOpts evs).1 = Ok out →
  postFilter traceOpts = Some P2 →
  Forall (λ s, P2 s = true) out.
Proof.
  intros (info & evs' & Hprep)%trace_returns_prepared HP2.
  apply prepare_inv in Hprep as (? & ? & ? & filtered & _ & _ & _ & _ & _ & ->).
  rewrite HP2. apply List_filter_Forall.
Qed.

(** X10.  On a tracer with source resolution, whenever [trace] returns,
    every returned step carries a label and an excerpt. *)
Theorem trace_annotates_all tr receipt traceOpts evs tc out :
  traceCollector tr = Some tc →
  (trace color parseSourceMap augmentLogs tr receipt traceOpts evs).1 = Ok out →
  Forall annotated_step out.
Proof.
  intros Htc (info & evs' & Hprep)%trace_returns_prepared.
  apply prepare_inv in Hprep
    as (tables & t & augmented & filtered & Hres & _ & _ & _ & Hinj & ->).
  destruct (resolve_source _ _ _ _) as [r evs1] eqn:Eres. simpl in Hres. subst r.
  destruct (resolve_source_Some _ _ _ _ _ _ Htc Eres) as [[table inverted] ->].
  simpl in Hinj. apply array_map_inject_Ok in Hinj as (_ & Hann & _).
  eapply sublist_Forall; [apply filter_opt_sublist | done].
Qed.

(** X11.  Source injection succeeds exactly when every step it is given
    has a program counter with a source range in a file of the index. *)
Theorem inject_source_succeeds table inverted logs :
  (∃ out, inject_source color (Some (table, inverted)) logs = Ok out)
  ↔ Forall (resolvable table inverted) logs.
Proof.
  simpl. split.
  - intros [out Hout]. by apply array_map_inject_Ok in Hout as (_ & _ & ?).
  - induction 1 as [|log logs (offset & Hpc & [file Hfile]) _ [out IH]];
      cbn [array_map]; [eauto |].
    unfold inject at 1. rewrite Hpc. unfold getSource. rewrite Hfile.
    cbn [result_bind]. rewrite IH. cbn [result_bind]. eauto.
Qed.


(** X13.  A failure of the observer is the failure of the call, and the
    call stops before the augmentation. *)
Theorem observer_failure tr receipt traceOpts evs tables evs1 t h e :
  resolve_source parseSourceMap tr receipt evs = (Ok tables, evs1) →
  debug_traceTransaction (web3 (network_config tr)) (transactionHash receipt)
    = Ok (Some t) →
  onTrace traceOpts = Some h →
  h (Some t) = Err e →
  trace color parseSourceMap augmentLogs tr receipt traceOpts evs
  = (Err e,
     evs1 ++ [EvTraceTransaction (transactionHash receipt); EvOnTrace (Some t)]).
Proof.
  intros Hres Hrpc Hh Hfail. unfold trace, prepare, bind. rewrite Hres.
  unfold call at 1. rewrite Hrpc, Hh. unfold call at 1. rewrite Hfail.
  by rewrite <- app_assoc.
Qed.

(** X14.  A failure of the bytecode lookup, or of the collector, is the
    failure of the call; after a failed lookup the collector is not
    queried, and in both cases no trace is requested. *)
Theorem resolution_failure tr receipt traceOpts evs tc e :
  traceCollector tr = Some tc →
  (eth_getCode (web3 (network_config tr))
     (js_or (contractAddress receipt) (to receipt)) = Err e →
   trace color parseSourceMap augmentLogs tr receipt traceOpts evs
   = (Err e, evs ++ [EvGetCode (js_or (contractAddress receipt) (to receipt))]))
  ∧ (∀ bytecode,
       eth_getCode (web3 (network_config tr))
         (js_or (contractAddress receipt) (to receipt)) = Ok bytecode →
       getContractDataByTraceInfoIfExistsAsync tc
         (js_or (contractAddress receipt) (to receipt)) bytecode
         (not_strict_null (contractAddress receipt)) = Err e →
       trace color parseSourceMap augmentLogs tr receipt traceOpts evs
       = (Err e,
          evs ++ [EvGetCode (js_or (contractAddress receipt) (to receipt));
                  EvGetContractData
                    (js_or (contractAddress receipt) (to receipt)) bytecode
                    (not_strict_null (contractAddress receipt))])).
Proof.
  intros Htc. split.
  - intros Hcode. apply trace_resolve_error.
    rewrite (resolve_source_collector _ _ _ _ _ Htc). simpl. by rewrite Hcode.
  - intros bytecode Hcode Hdata. apply trace_resolve_error.
    rewrite (resolve_source_collector _ _ _ _ _ Htc). simpl.
    rewrite Hcode, Hdata. by rewrite <- app_assoc.
Qed.

(** X15.  For a receipt that carries a created-contract address, the
    collector is asked about a creation and the decoder is given the
    construction-time source map; for a receipt whose [contractAddress]
    is [null], it is asked about a call and the decoder is given the
    runtime source map.  The decoder gets the bytecode without its "0x"
    prefix. *)
Theorem source_map_selection tr receipt traceOpts evs tc bytecode contractData :
  traceCollector tr = Some tc →
  contractAddress receipt = JNull ∨ is_Some (created_address receipt) →
  eth_getCode (web3 (network_config tr)) (target_address receipt) = Ok bytecode →
  getContractDataByTraceInfoIfExistsAsync tc (target_address receipt) bytecode
    (bool_decide (is_Some (created_address receipt))) = Ok (Some contractData) →
  ∃ rest,
    (trace color parseSourceMap augmentLogs tr receipt traceOpts evs).2
    = evs
        ++ [EvGetCode (target_address receipt);
            EvGetContractData (target_address receipt) bytecode
              (bool_decide (is_Some (created_address receipt)));
            EvParseSourceMap
              (if bool_decide (is_Some (created_address receipt))
               then sourceMap contractData
               else sourceMapRuntime contractData)
              (stripHexPrefix bytecode)]
        ++ rest.
Proof.
  intros Htc Hshape.
  assert (js_or (contractAddress receipt) (to receipt) = target_address receipt
          ∧ not_strict_null (contractAddress receipt)
            = bool_decide (is_Some (created_address receipt))) as [Haddr Hflag].
  { unfold js_or, target_address, created_address, truthy, not_strict_null in *.
    destruct Hshape as [-> | [a Ha]]; [done |].
    destruct (contractAddress receipt) as [| | a' |]; try done.
    case_decide; [done |]. destruct (String.eqb_spec a' ""); done. }
  intros Hcode Hdata.
  destruct (trace_events_after_resolve color parseSourceMap augmentLogs
              tr receipt traceOpts evs) as [rest ->].
  rewrite (resolve_source_collector _ _ _ _ _ Htc). simpl.
  rewrite Haddr, Hflag, Hcode, Hdata. exists rest.
  destruct (parseSourceMap _ _ _ _) as [table |];
    [destruct (build_inverted contractData) |];
    simpl; by rewrite <- !app_assoc.
Qed.

(** X16.  A tracer without source resolution makes no bytecode lookup
    and no collector query, and what it returns are the augmented steps
    themselves, those that pass both filters, as they are. *)
Theorem plain_tracer_untouched tr receipt traceOpts evs :
  traceCollector tr = None →
  code_lookups
    (trace color parseSourceMap augmentLogs tr receipt traceOpts evs).2
  = code_lookups evs
  ∧ collector_lookups
      (trace color parseSourceMap augmentLogs tr receipt traceOpts evs).2
    = collector_lookups evs
  ∧ ∀ out,
      (trace color parseSourceMap augmentLogs tr receipt traceOpts evs).1
      = Ok out →
      ∃ t augmented info,
        debug_traceTransaction (web3 (network_config tr))
          (transactionHash receipt) = Ok (Some t)
        ∧ augmentLogs (structLogs t) (default ∅ (constants traceOpts))
          = Ok (augmented, info)
        ∧ out = filter_opt (postFilter traceOpts)
                  (filter_opt (preFilter traceOpts) augmented).
Proof.
  intros Htc. split; [| split].
  - revert evs. change (silent getCode_event
      (trace color parseSourceMap augmentLogs tr receipt traceOpts)).
    unfold trace, prepare, dispatch, resolve_source. rewrite Htc.
    repeat silent_step.
  - revert evs. change (silent getContractData_event
      (trace color parseSourceMap augmentLogs tr receipt traceOpts)).
    unfold trace, prepare, dispatch, resolve_source. rewrite Htc.
    repeat silent_step.
  - intros out (info & evs' & Hprep)%trace_returns_prepared.
    apply prepare_inv in Hprep
      as (tables & t & augmented & filtered & Hres & Hrpc & _ & Haug & Hinj & ->).
    unfold resolve_source in Hres. rewrite Htc in Hres.
    injection Hres as <-. injection Hinj as <-. by exists t, augmented, info.
Qed.

End Stages.

(** ** The handlers *)

Lemma exec_calls_app (a b : list Event) :
  exec_calls (a ++ b) = exec_calls a ++ exec_calls b.
Proof. apply omap_app. Qed.

Lemma exec_calls_execLog (logs : list StructLog) (info : TraceInfo) :
  exec_calls ((λ log, EvExecLog log info) <$> logs) = [].
Proof. induction logs as [|log logs IH]; [done | by rewrite fmap_cons]. Qed.

(** Lines 157-159 when no per-step handler is configured. *)
Lemma dispatch_no_execLog traceOpts logs info evs :
  execLog traceOpts = None →
  dispatch traceOpts logs info evs
  = match exec traceOpts with
    | Some g => (g logs info, evs ++ [EvExec logs info])
    | None => (Ok tt, evs)
    end.
Proof.
  intros Hh. unfold dispatch, bind, ret, call. rewrite Hh.
  by destruct (exec traceOpts).
Qed.

Section Handlers.

Variable color : string → string.
Variable parseSourceMap :
  gmap Z string → string → string → list (Z * string) → result PcTable.
Variable augmentLogs :
  list StructLog → gmap string string → result (list StructLog * TraceInfo).

Lemma prepare_no_exec tr receipt traceOpts evs :
  exec_calls
    (prepare color parseSourceMap augmentLogs tr receipt traceOpts evs).2
  = exec_calls evs.
Proof.
  revert evs. change (silent exec_event
    (prepare color parseSourceMap augmentLogs tr receipt traceOpts)).
  unfold prepare, resolve_source. repeat silent_step.
Qed.


(** X18.  Whenever [trace] returns with a batch handler configured, the
    handler was invoked exactly once, on the very sequence [trace]
    returns and the provenance index of the augmentation, and it
    succeeded. *)
Theorem batch_handler_gets_result tr receipt traceOpts evs out g :
  (trace color parseSourceMap augmentLogs tr receipt traceOpts evs).1 = Ok out →
  exec traceOpts = Some g →
  ∃ t augmented info,
    debug_traceTransaction (web3 (network_config tr)) (transactionHash receipt)
      = Ok (Some t)
    ∧ augmentLogs (structLogs t) (default ∅ (constants traceOpts))
      = Ok (augmented, info)
    ∧ g out info = Ok tt
    ∧ exec_calls
        (trace color parseSourceMap augmentLogs tr receipt traceOpts evs).2
      = exec_calls evs ++ [(out, info)].
Proof.
  intros Hout Hg.
  destruct (trace_returns_prepared _ _ _ _ _ _ _ _ Hout) as (info & evs' & Hprep).
  pose proof (prepare_no_exec tr receipt traceOpts evs) as Hquiet.
  rewrite Hprep in Hquiet. simpl in Hquiet.
  destruct (prepare_inv _ _ _ _ _ _ _ _ _ _ Hprep)
    as (tables & t & augmented & filtered & _ & Hrpc & _ & Haug & _ & _).
  exists t, augmented, info. split; [done |]. split; [done |].
  revert Hout. unfold trace, bind. rewrite Hprep. simpl.
  destruct (execLog traceOpts) as [h |] eqn:Hh.
  - rewrite (dispatch_execLog _ _ _ _ _ Hh), Hg.
    pose proof (silent_invoke_from exec_event h info 0 out (λ _, eq_refl) evs')
      as Hsilent.
    destruct (invoke_from h info 0 out evs') as [[ps |] evs'']; [| done].
    destruct (promise_all ps) as [vs |]; [| done].
    destruct (g out info) as [[] |]; [| done]. simpl. intros _. split; [done |].
    simpl in Hsilent. unfold exec_calls in *.
    by rewrite omap_app, Hsilent, Hquiet.
  - rewrite (dispatch_no_execLog _ _ _ _ Hh), Hg.
    destruct (g out info) as [[] |]; [| done]. simpl. intros _. split; [done |].
    by rewrite exec_calls_app, Hquiet.
Qed.

(** X19.  A failure of the batch handler is the failure of the call,
    although every step has been processed by then. *)
Theorem batch_handler_failure tr receipt traceOpts evs logs info evs' g e :
  prepare color parseSourceMap augmentLogs tr receipt traceOpts evs
    = (Ok (logs, info), evs') →
  execLog traceOpts = None →
  exec traceOpts = Some g →
  g logs info = Err e →
  trace color parseSourceMap augmentLogs tr receipt traceOpts evs
  = (Err e, evs' ++ [EvExec logs info]).
Proof.
  intros Hprep Hh Hg Hfail. unfold trace, bind. rewrite Hprep. simpl.
  by rewrite (dispatch_no_execLog _ _ _ _ Hh), Hg, Hfail.
Qed.

End Handlers.

(** ** Construction *)

Section Construction.

Variable color : string → string.
Variable newTraceCollector : ArtifactAdapter → TraceCollector.
Variable parseSourceMap :
  gmap Z string → string → string → list (Z * string) → result PcTable.
Variable augmentLogs :
  list StructLog → gmap string string → result (list StructLog * TraceInfo).

(** X20.  What [buildTracer] settles for the tracer it returns, which
    queries the node of the configuration it was built on.  Built on a
    configuration without artifact adapter, it asks nothing of an
    adapter, and no call of the tracer looks up bytecode or queries a
    collector.  Built on a configuration with one, it has called the
    adapter's [collectContractsDataAsync], once and with success, the
    collector of the tracer is the one made from that adapter, and
    every call of the tracer looks up the bytecode at the address the
    receipt designates, once, and returns annotated steps only. *)
Theorem buildTracer_decides_resolution config evs tr evs1 receipt
    traceOpts evs2 :
  buildTracer newTraceCollector config evs = (Ok tr, evs1) →
  network_config tr = config
  ∧ match artifactAdapter config with
    | None =>
        evs1 = evs
        ∧ traceCollector tr = None
        ∧ code_lookups
            (trace color parseSourceMap augmentLogs tr receipt traceOpts evs2).2
          = code_lookups evs2
        ∧ collector_lookups
            (trace color parseSourceMap augmentLogs tr receipt traceOpts evs2).2
          = collector_lookups evs2
    | Some adapter =>
        evs1 = evs ++ [EvCollectContractsData]
        ∧ (∃ collected,
             collectContractsDataAsync adapter = Ok collected
             ∧ contractsData tr = Some collected)
        ∧ traceCollector tr = Some (newTraceCollector adapter)
        ∧ code_lookups
            (trace color parseSourceMap augmentLogs tr receipt traceOpts evs2).2
          = code_lookups evs2 ++ [js_or (contractAddress receipt) (to receipt)]
        ∧ ∀ out,
            (trace color parseSourceMap augmentLogs tr receipt traceOpts evs2).1
            = Ok out →
            Forall annotated_step out
    end.
Proof.
  unfold buildTracer, bind, call, ret.
  destruct (artifactAdapter config) as [adapter |].
  - destruct (collectContractsDataAsync adapter) as [cds |]; [| done].
    intros [= <- <-]. simpl. split; [done |]. split; [done |].
    split; [by eexists |]. split; [done |]. split.
    + unfold code_lookups, trace, prepare, resolve_source. simpl.
      rewrite !bind_assoc.
      rewrite (omap_bind_call getCode_event); [done |].
      intros bytecode. repeat silent_step.
    + intros out (info & evs' & Hprep)%trace_returns_prepared.
      apply prepare_inv in Hprep
        as (tables & t & augmented & filtered & Hres & _ & _ & _ & Hinj & ->).
      destruct (resolve_source _ _ _ _) as [r evs3] eqn:Eres.
      simpl in Hres. subst r.
      assert (is_Some tables) as [[table inverted] ->].
      { eapply resolve_source_Some; [| exact Eres]. reflexivity. }
      simpl in Hinj. apply array_map_inject_Ok in Hinj as (_ & Hann & _).
      eapply sublist_Forall; [apply filter_opt_sublist | done].
  - intros [= <- <-]. simpl. split; [done |]. split; [done |]. split; [done |].
    split.
    + revert evs2. change (silent getCode_event
        (trace color parseSourceMap augmentLogs
           {| network_config := config; contractsData := None;
              traceCollector := None |} receipt traceOpts)).
      unfold trace, prepare, dispatch, resolve_source. simpl.
      repeat silent_step.
    + revert evs2. change (silent getContractData_event
        (trace color parseSourceMap augmentLogs
           {| network_config := config; contractsData := None;
              traceCollector := None |} receipt traceOpts)).
      unfold trace, prepare, dispatch, resolve_source. simpl.
      repeat silent_step.
Qed.

End Construction.

(** ** The trace request *)

(** X21.  [traceTransaction] sends the request for the method
    [debug_traceTransaction] with the hash and the parameters, and only
    the first answer of the provider counts.  It yields a trace exactly
    when that answer has a falsy error and a response with a result; it
    yields undefined, and does not fail, exactly when that answer has a
    falsy error and a response without result; and it never settles
    exactly when the provider never answers. *)
Theorem traceTransaction_outcome (currentProvider : Provider) (txHash : string)
    (traceParams : jsval) :
  (∀ result,
     traceTransaction currentProvider txHash traceParams = Some (Ok result)
     ↔ ∃ err later,
         send currentProvider
           {| method := "debug_traceTransaction";
              params := [JStr txHash; traceParams] |}
         = SendCallsBack ((err, Response result) :: later)
         ∧ truthy err = false)
  ∧ (traceTransaction currentProvider txHash traceParams = None
     ↔ send currentProvider
         {| method := "debug_traceTransaction";
            params := [JStr txHash; traceParams] |}
       = SendCallsBack []).
Proof.
  unfold traceTransaction, rpc.
  destruct (send currentProvider _) as [e | [|[err res] later]].
  - split; [intros t |]; (split; [done |]); [by intros (? & ? & [=] & _) | done].
  - split; [intros t |]; (split; [done |]); [by intros (? & ? & [=] & _) | done].
  - split; [intros t |]; split.
    + destruct (truthy err) eqn:Herr; [done |].
      destruct res as [| t']; try done. intros [= ->]. by exists err, later.
    + by intros (err' & later' & [= -> -> ->] & ->).
    + destruct (truthy err); [done |]. by destruct res as [| [|]].
    + done.
Qed.

(** ** When the call returns *)

Section Returns.

Variable color : string → string.
Variable parseSourceMap :
  gmap Z string → string → string → list (Z * string) → result PcTable.
Variable augmentLogs :
  list StructLog → gmap string string → result (list StructLog * TraceInfo).


End Returns.

(** ** The label identifies the range *)

Lemma is_digit_pretty_N_char (x : N) : is_digit (pretty_N_char x) = true.
Proof. unfold pretty_N_char. by repeat case_match. Qed.

Lemma all_digits_app (a b : string) :
  all_digits (a +:+ b) = all_digits a && all_digits b.
Proof.
  induction a as [|c a IH]; simpl; [done |]. by rewrite IH, andb_assoc.
Qed.

(** The digits [pretty_N_go] puts in front of its accumulator. *)
Lemma pretty_N_go_digits (x : N) (s : string) :
  ∃ d,
    pretty_N_go x s = d +:+ s
    ∧ all_digits d = true
    ∧ ((0 < x)%N → d ≠ "").
Proof.
  revert s. induction (N.lt_wf_0 x) as [x _ IH]; intros s.
  destruct (decide (x = 0)%N) as [-> | Hx].
  - exists "". rewrite pretty_N_go_0. split; [done |]. split; [done | lia].
  - rewrite pretty_N_go_step by lia.
    destruct (IH (x `div` 10)%N) with (s := String (pretty_N_char (x `mod` 10)) s)
      as (d & -> & Hd & _).
    { apply N.div_lt; lia. }
    exists (d +:+ String (pretty_N_char (x `mod` 10)) "").
    rewrite append_assoc. split; [done |]. split.
    + rewrite all_digits_app, Hd. simpl.
      by rewrite is_digit_pretty_N_char.
    + intros _. by destruct d.
Qed.

Lemma numeral_pretty (z : Z) : numeral (js_number_to_string z).
Proof.
  unfold js_number_to_string, pretty, pretty_Z.
  assert (∀ p, ∃ d, pretty (N.pos p) = d ∧ all_digits d = true ∧ d ≠ "") as Hpos.
  { intros p. unfold pretty, pretty_N. rewrite decide_False by done.
    destruct (pretty_N_go_digits (N.pos p) "") as (d & -> & Hd & Hne).
    exists d. rewrite append_nil_r. split; [done |]. split; [done |].
    apply Hne. lia. }
  destruct z as [|p|p].
  - exists "0". by split; [left |].
  - destruct (Hpos p) as (d & Hp & Hd & Hne). exists d.
    split; [left; exact Hp | done].
  - destruct (Hpos p) as (d & Hp & Hd & Hne). exists d.
    split; [right | done]. unfold pretty, pretty_positive. by rewrite Hp.
Qed.

Lemma digits_delimited (d1 d2 : string) (c1 c2 : ascii) (r1 r2 : string) :
  all_digits d1 = true → all_digits d2 = true →
  is_digit c1 = false → is_digit c2 = false →
  d1 +:+ String c1 r1 = d2 +:+ String c2 r2 →
  d1 = d2 ∧ c1 = c2 ∧ r1 = r2.
Proof.
  revert d2; induction d1 as [|x d1 IH]; intros [|y d2]; simpl;
    intros H1 H2 Hc1 Hc2 Heq.
  - by injection Heq as -> ->.
  - injection Heq as -> _. apply andb_prop in H2 as [Hy _]. congruence.
  - injection Heq as -> _. apply andb_prop in H1 as [Hx _]. congruence.
  - injection Heq as -> Heq.
    apply andb_prop in H1 as [_ H1]. apply andb_prop in H2 as [_ H2].
    by destruct (IH d2 H1 H2 Hc1 Hc2 Heq) as (-> & -> & ->).
Qed.

(** A numeral ends where the first character that is no digit stands,
    the sign apart. *)
Lemma numeral_delimited (s1 s2 : string) (c1 c2 : ascii) (r1 r2 : string) :
  numeral s1 → numeral s2 →
  is_digit c1 = false → is_digit c2 = false →
  s1 +:+ String c1 r1 = s2 +:+ String c2 r2 →
  s1 = s2 ∧ c1 = c2 ∧ r1 = r2.
Proof.
  intros (d1 & Hs1 & Hd1 & Hne1) (d2 & Hs2 & Hd2 & Hne2) Hc1 Hc2 Heq.
  destruct Hs1 as [-> | ->], Hs2 as [-> | ->].
  - by apply digits_delimited.
  - destruct d1 as [|x d1]; [done |]. simpl in Heq, Hd1.
    injection Heq as -> _. by apply andb_prop in Hd1 as [? _].
  - destruct d2 as [|x d2]; [done |]. simpl in Heq, Hd2.
    injection Heq as <- _. by apply andb_prop in Hd2 as [? _].
  - simpl in Heq. injection Heq as Heq.
    by destruct (digits_delimited _ _ _ _ _ _ Hd1 Hd2 Hc1 Hc2 Heq)
      as (-> & -> & ->).
Qed.

Lemma number_delimited (a b : Z) (c1 c2 : ascii) (r1 r2 : string) :
  is_digit c1 = false → is_digit c2 = false →
  js_number_to_string a +:+ String c1 r1
  = js_number_to_string b +:+ String c2 r2 →
  a = b ∧ c1 = c2 ∧ r1 = r2.
Proof.
  intros Hc1 Hc2 Heq.
  destruct (numeral_delimited _ _ _ _ _ _ (numeral_pretty a) (numeral_pretty b)
              Hc1 Hc2 Heq) as (Hab & -> & ->).
  split; [| done]. by apply (inj pretty).
Qed.

(** X5.  Within a file, the label tells the range: two ranges of one
    file name with the same label have the same start and end lines and
    columns. *)
Theorem getSource_label_injective (color : string → string) (file : string)
    (lines lines' : list string) (L1 c1 L2 c2 L1' c1' L2' c2' : Z) ex ex' :
  getSource color (mkRange file L1 c1 L2 c2) (Some lines) = Ok ex →
  getSource color (mkRange file L1' c1' L2' c2') (Some lines') = Ok ex' →
  excerpt_sourceLine ex = excerpt_sourceLine ex' →
  L1 = L1' ∧ c1 = c1' ∧ L2 = L2' ∧ c2 = c2'.
Proof.
  unfold getSource. simpl. intros [= <-] [= <-]. simpl.
  destruct (Z.eqb_spec L1 L2) as [<- | Hne], (Z.eqb_spec L1' L2') as [<- | Hne'];
    intros Heq; apply (inj (String.app file)) in Heq; simpl in Heq;
    injection Heq as Heq;
    apply number_delimited in Heq as (<- & _ & Heq); try done;
    apply number_delimited in Heq as (<- & Hsep & Heq); try done.
  - change "]" with (String "]" "") in Heq.
    by apply number_delimited in Heq as (<- & _ & _).
  - simpl in Heq. injection Heq as Heq.
    apply number_delimited in Heq as (<- & _ & Heq); try done.
    change "]" with (String "]" "") in Heq.
    by apply number_delimited in Heq as (<- & _ & _).
Qed.

(** ** Instances of the further properties *)

Lemma excerpt_strip_single_line_witness :
  ∃ ex,
    getSource (blueBright true) (mkRange "A" 1 0 1 1) (Some Sample.file) = Ok ex
    ∧ strip_markers (excerpt_source ex) = "ab"
    ∧ (0 = 1 → excerpt_source ex = "ab").
Proof.
  apply (excerpt_strip_single_line true Sample.file "A" 1 0 1 "ab").
  - repeat constructor.
  - lia.
  - reflexivity.
  - lia.
  - lia.
Defined.

Lemma excerpt_reversed_columns_witness :
  ∃ ex,
    getSource (blueBright true) (mkRange "A" 1 2 1 1) (Some Sample.file) = Ok ex
    ∧ excerpt_source ex = "abb"
    ∧ Z.of_nat (String.length (excerpt_source ex)) = 2 + (2 - 1).
Proof.
  apply (excerpt_reversed_columns true Sample.file "A" 1 2 1 "ab").
  - repeat constructor.
  - lia.
  - reflexivity.
  - lia.
  - lia.
  - simpl; lia.
Defined.

Lemma excerpt_outside_file_witness :
  ∃ ex,
    getSource (blueBright true) (mkRange "A" 3 0 4 1) (Some Sample.file) = Ok ex
    ∧ excerpt_source ex = "".
Proof.
  apply (excerpt_outside_file (blueBright true) Sample.file "A" 3 0 4 1).
  - lia.
  - lia.
  - left. simpl. lia.
Defined.

Lemma excerpt_end_line_clamped_witness :
  ∃ ex ex',
    getSource (blueBright true) (mkRange "A" 2 0 2 1) (Some Sample.file) = Ok ex
    ∧ getSource (blueBright true) (mkRange "A" 2 0 7 1) (Some Sample.file) = Ok ex'
    ∧ excerpt_source ex = excerpt_source ex'.
Proof.
  apply (excerpt_end_line_clamped (blueBright true) Sample.file "A" 2 0 2 7 1).
  - simpl; lia.
  - simpl; lia.
Defined.

Lemma build_inverted_lookup_witness :
  ∃ code,
    sourceCodes Sample.contract !! 0 = Some code
    ∧ ({[ "A" := Sample.file ]} : FileIndex) !! "A" = Some (split_lines code)
    ∧ join_lines (split_lines code) = code.
Proof.
  apply (build_inverted_lookup Sample.contract {[ "A" := Sample.file ]}
           [] 0 "A" []).
  - reflexivity.
  - reflexivity.
  - apply not_elem_of_nil.
Defined.

Lemma trace_selects_in_order_witness :
  ∃ out,
    (Sample.run Sample.resolved_tracer Sample.call_receipt
       (with_filters Sample.no_options (Some Sample.early) None)).1 = Ok out
    ∧ ∃ t augmented info,
        debug_traceTransaction (web3 (network_config Sample.resolved_tracer))
          "0xabc" = Ok (Some t)
        ∧ Sample.augment (structLogs t) ∅ = Ok (augmented, info)
        ∧ other_fields <$> out `sublist_of` other_fields <$> augmented.
Proof.
  eexists. split; [vm_compute; reflexivity |].
  apply (trace_selects_in_order (blueBright true) Sample.parse Sample.augment
           Sample.resolved_tracer Sample.call_receipt
           (with_filters Sample.no_options (Some Sample.early) None) []).
  vm_compute; reflexivity.
Defined.

Lemma trace_satisfies_postFilter_witness :
  Forall (λ s, Sample.early s = true) [Sample.step 0; Sample.step 1].
Proof.
  apply (trace_satisfies_postFilter (blueBright true) Sample.parse Sample.augment
           Sample.plain_tracer Sample.call_receipt
           (with_filters Sample.no_options None (Some Sample.early)) []).
  - reflexivity.
  - reflexivity.
Defined.

Lemma trace_annotates_all_witness :
  ∃ out,
    (Sample.run Sample.resolved_tracer Sample.call_receipt Sample.no_options).1
    = Ok out
    ∧ Forall annotated_step out.
Proof.
  eexists. split; [vm_compute; reflexivity |].
  apply (trace_annotates_all (blueBright true) Sample.parse Sample.augment
           Sample.resolved_tracer Sample.call_receipt Sample.no_options []
           (Sample.collector true) _ eq_refl).
  vm_compute; reflexivity.
Defined.


Lemma observer_failure_witness :
  Sample.run Sample.plain_tracer Sample.call_receipt Cases.observer_options
  = (Err (Rejected (JStr "observer")),
     [EvTraceTransaction "0xabc"; EvOnTrace (Some Sample.raw_trace)]).
Proof.
  apply (observer_failure (blueBright true) Sample.parse Sample.augment
           Sample.plain_tracer Sample.call_receipt Cases.observer_options
           [] None [] Sample.raw_trace (λ _, Err (Rejected (JStr "observer")))).
  - reflexivity.
  - reflexivity.
  - reflexivity.
  - reflexivity.
Defined.

Lemma resolution_failure_witness :
  Sample.run Cases.offline_tracer Sample.call_receipt Sample.no_options
  = (Err (Rejected (JStr "offline")), [EvGetCode (JStr "0xD0")]).
Proof.
  apply (resolution_failure (blueBright true) Sample.parse Sample.augment
           Cases.offline_tracer Sample.call_receipt Sample.no_options []
           (Sample.collector true) (Rejected (JStr "offline")) eq_refl).
  reflexivity.
Defined.

Lemma source_map_selection_witness :
  (∃ rest,
     (Sample.run (Sample.tracer true) Sample.creation_receipt Sample.no_options).2
     = [EvGetCode (JStr "0xC0"); EvGetContractData (JStr "0xC0") "0x6001" true;
        EvParseSourceMap "creation-map" "6001"] ++ rest)
  ∧ ∃ rest,
      (Sample.run (Sample.tracer true) Sample.call_receipt Sample.no_options).2
      = [EvGetCode (JStr "0xD0"); EvGetContractData (JStr "0xD0") "0x6001" false;
         EvParseSourceMap "runtime-map" "6001"] ++ rest.
Proof.
  split.
  - apply (source_map_selection (blueBright true) Sample.parse Sample.augment
             (Sample.tracer true) Sample.creation_receipt Sample.no_options []
             (Sample.collector true) "0x6001" Sample.contract eq_refl).
    + right. by eexists.
    + reflexivity.
    + reflexivity.
  - apply (source_map_selection (blueBright true) Sample.parse Sample.augment
             (Sample.tracer true) Sample.call_receipt Sample.no_options []
             (Sample.collector true) "0x6001" Sample.contract eq_refl).
    + by left.
    + reflexivity.
    + reflexivity.
Defined.

Lemma plain_tracer_untouched_witness :
  code_lookups
    (Sample.run Sample.plain_tracer Sample.call_receipt Sample.no_options).2 = []
  ∧ collector_lookups
      (Sample.run Sample.plain_tracer Sample.call_receipt Sample.no_options).2
    = [].
Proof.
  destruct (plain_tracer_untouched (blueBright true) Sample.parse Sample.augment
              Sample.plain_tracer Sample.call_receipt Sample.no_options []
              eq_refl) as (Hcode & Hdata & _).
  by split.
Defined.


Lemma batch_handler_gets_result_witness :
  ∃ t augmented info,
    debug_traceTransaction (web3 (network_config Sample.plain_tracer)) "0xabc"
      = Ok (Some t)
    ∧ Sample.augment (structLogs t) ∅ = Ok (augmented, info)
    ∧ Ok tt = Ok tt
    ∧ exec_calls
        (Sample.run Sample.plain_tracer Sample.call_receipt
           (Cases.batch_options (Ok tt))).2
      = [(structLogs Sample.raw_trace, info)].
Proof.
  apply (batch_handler_gets_result (blueBright true) Sample.parse Sample.augment
           Sample.plain_tracer Sample.call_receipt (Cases.batch_options (Ok tt))
           [] (structLogs Sample.raw_trace) (λ _ _, Ok tt)).
  - reflexivity.
  - reflexivity.
Defined.

Lemma batch_handler_failure_witness :
  Sample.run Sample.plain_tracer Sample.call_receipt
    (Cases.batch_options (Err (Rejected (JStr "batch"))))
  = (Err (Rejected (JStr "batch")),
     [EvTraceTransaction "0xabc"; EvAugmentLogs (structLogs Sample.raw_trace) ∅]
       ++ [EvExec (structLogs Sample.raw_trace) Sample.info]).
Proof.
  apply (batch_handler_failure (blueBright true) Sample.parse Sample.augment
           Sample.plain_tracer Sample.call_receipt
           (Cases.batch_options (Err (Rejected (JStr "batch")))) []
           (structLogs Sample.raw_trace) Sample.info
           [EvTraceTransaction "0xabc";
            EvAugmentLogs (structLogs Sample.raw_trace) ∅]
           (λ _ _, Err (Rejected (JStr "batch")))).
  - reflexivity.
  - reflexivity.
  - reflexivity.
  - reflexivity.
Defined.

Lemma buildTracer_decides_resolution_witness :
  code_lookups
    (Sample.run Sample.resolved_tracer Sample.call_receipt Sample.no_options).2
  = [JStr "0xD0"]
  ∧ ∃ out,
      (Sample.run Sample.resolved_tracer Sample.call_receipt Sample.no_options).1
      = Ok out
      ∧ Forall annotated_step out.
Proof.
  destruct (buildTracer_decides_resolution (blueBright true)
              (λ _, Sample.collector true) Sample.parse Sample.augment
              (network_config Sample.resolved_tracer) [] Sample.resolved_tracer
              [EvCollectContractsData] Sample.call_receipt Sample.no_options []
              eq_refl) as (_ & _ & _ & _ & Hcode & Hann).
  split; [exact Hcode |].
  eexists. split; [vm_compute; reflexivity |].
  apply Hann. vm_compute; reflexivity.
Defined.


Lemma getSource_label_injective_witness :
  12 = 12 ∧ 2 = 2 ∧ 14 = 14 ∧ 5 = 5.
Proof.
  apply (getSource_label_injective (blueBright true) "A" Sample.file []
           12 2 14 5 12 2 14 5 _ _ eq_refl eq_refl).
  reflexivity.
Defined.
